(** * Laplacian mesh smoothing: the core of [LaplacianSmoothingApp]

    A shallow embedding of [_laplacian_smooth] and of the part of
    [apply_smoothing] that builds the smoothed mesh (src/main.py), with the
    properties of the connectivity pass and of the relaxation loop.

    The NumPy arithmetic is kept abstract (class [Scalar]) so that the
    structural results hold for whatever element type the point array has.
    Two instances are given: [F64], IEEE-754 binary64 with round to nearest
    even (the arithmetic of a float64 point array), and [QS], exact rational
    arithmetic. *)

From Stdlib Require Import ZArith List Bool Lia Permutation QArith Lqa.
From Stdlib Require Import SpecFloat.
Import ListNotations.

Open Scope Z_scope.

(** ** Outcomes of a Python call *)

(** The exceptions the modelled code can raise: a dictionary lookup of a
    missing key ([adj[u]]) and an array index out of bounds ([arr[i]]). *)
Inductive exn : Type :=
| KeyError (key : Z)
| IndexError.

(** A call returns, raises, or is still looping when the fuel of the only
    [while] loop is used up. *)
Inductive outcome (A : Type) : Type :=
| Returns (a : A)
| Raises (e : exn)
| OutOfFuel.

Arguments Returns {A} a.
Arguments Raises {A} e.
Arguments OutOfFuel {A}.

Definition bind {A B : Type} (m : outcome A) (k : A -> outcome B) : outcome B :=
  match m with
  | Returns a => k a
  | Raises e => Raises e
  | OutOfFuel => OutOfFuel
  end.

Notation "x <- m ;; k" := (bind m (fun x => k))
  (at level 61, m at next level, right associativity).

Definition fails {A : Type} (r : outcome A) : Prop := exists e, r = Raises e.

(** ** Lists used as NumPy arrays and Python sets *)

(** [temp[idx] = x]; the index is always in range where the code uses it. *)
Fixpoint update {A : Type} (i : nat) (x : A) (l : list A) : list A :=
  match l, i with
  | [], _ => []
  | _ :: t, O => x :: t
  | h :: t, S j => h :: update j x t
  end.

(** [v in s] and [s.add(v)] on a set of integers, kept as a duplicate-free
    list in insertion order.  Iterating a Python set follows its hash
    table, not the insertion: see [iteration_order]. *)
Definition in_set (v : Z) (s : list Z) : bool := existsb (Z.eqb v) s.

Definition set_add (v : Z) (s : list Z) : list Z :=
  if in_set v s then s else s ++ [v].

(** [arr[i]] with Python's negative indices. *)
Definition py_index (arr : list Z) (i : Z) : outcome Z :=
  let n := Z.of_nat (length arr) in
  if (0 <=? i) && (i <? n) then Returns (nth (Z.to_nat i) arr 0)
  else if (- n <=? i) && (i <? 0) then Returns (nth (Z.to_nat (i + n)) arr 0)
  else Raises IndexError.

(** [arr[a:b]]: both bounds are taken from the end when negative and are
    clipped to the array. *)
Definition py_slice (arr : list Z) (a b : Z) : list Z :=
  let n := Z.of_nat (length arr) in
  let clip x := if x <? 0 then Z.max 0 (x + n) else Z.min x n in
  let s := clip a in
  let e := clip b in
  firstn (Z.to_nat (e - s)) (skipn (Z.to_nat s) arr).

(** ** Faces: from the flat PyVista array to a list of index lists *)

(** The [while i < len(arr)] loop of [_laplacian_smooth].  One unit of fuel
    is one turn of the loop.  The index is an integer of [Z]; the integers
    of a NumPy array have 32 or 64 bits and agree with it as long as
    [i + 1 + n] stays in their range, which the results on arbitrary arrays
    ask for. *)
Fixpoint parse_loop (fuel : nat) (arr : list Z) (i : Z) (faces : list (list Z))
  : outcome (list (list Z)) :=
  if Z.of_nat (length arr) <=? i then Returns faces
  else
    match fuel with
    | O => OutOfFuel
    | S fuel' =>
        n <- py_index arr i ;;
        parse_loop fuel' arr (i + (1 + n)) (faces ++ [py_slice arr (i + 1) (i + 1 + n)])
    end.

(** The loop state is the index [i] alone, and inside the loop
    [-len(arr) <= i < len(arr)]: a run of more than [2 * len(arr)] turns
    repeats a state. *)
Definition parse_faces (arr : list Z) : outcome (list (list Z)) :=
  parse_loop (2 * length arr + 1) arr 0 [].

(** The flat array of a list of faces: each face preceded by its size. *)
Definition flatten_faces (faces : list (list Z)) : list Z :=
  flat_map (fun f => Z.of_nat (length f) :: f) faces.

(** ** Connectivity Builder *)

Definition edge : Type := (Z * Z)%type.

(** [tuple(sorted((v1, v2)))] *)
Definition sorted_pair (v1 v2 : Z) : edge :=
  if v1 <=? v2 then (v1, v2) else (v2, v1).

Definition edge_eqb (a b : edge) : bool :=
  (fst a =? fst b) && (snd a =? snd b).

(** [edge_count], a dict from edges to counts, in insertion order. *)
Definition edge_dict : Type := list (edge * nat).

Fixpoint dict_get (d : edge_dict) (e : edge) (dflt : nat) : nat :=
  match d with
  | [] => dflt
  | (k, c) :: rest => if edge_eqb k e then c else dict_get rest e dflt
  end.

Fixpoint dict_set (d : edge_dict) (e : edge) (c : nat) : edge_dict :=
  match d with
  | [] => [(e, c)]
  | (k, c0) :: rest =>
      if edge_eqb k e then (k, c) :: rest else (k, c0) :: dict_set rest e c
  end.

(** [edge_count[e] = edge_count.get(e, 0) + 1] *)
Definition bump (edge_count : edge_dict) (e : edge) : edge_dict :=
  dict_set edge_count e (dict_get edge_count e 0 + 1)%nat.

(** In a dictionary every key is stored once, and a stored count is never 0. *)
Definition dict_ok (d : edge_dict) : Prop :=
  NoDup (map fst d) /\ forall k c, In (k, c) d -> (0 < c)%nat.

(** The body of [for j in range(m)]. *)
Definition count_edge_at (face : list Z) (edge_count : edge_dict) (j : nat)
  : edge_dict :=
  let m := length face in
  let v1 := nth j face 0 in
  let v2 := nth ((j + 1) mod m) face 0 in
  if v1 =? v2 then edge_count
  else
    let e := sorted_pair v1 v2 in
    bump edge_count e.

(** The body of [for face in faces]. *)
Definition count_face (edge_count : edge_dict) (face : list Z) : edge_dict :=
  fold_left (count_edge_at face) (seq 0 (length face)) edge_count.

Definition count_edges (faces : list (list Z)) : edge_dict :=
  fold_left count_face faces [].

(** [adj], a dict whose keys are [range(N)]: the list of the neighbour sets. *)
Definition adjacency : Type := list (list Z).

(** [adj[u].add(v)] *)
Definition adj_add (adj : adjacency) (u v : Z) : outcome adjacency :=
  if (0 <=? u) && (u <? Z.of_nat (length adj))
  then Returns (update (Z.to_nat u) (set_add v (nth (Z.to_nat u) adj [])) adj)
  else Raises (KeyError u).

(** [for (u, v), count in edge_count.items()] *)
Fixpoint add_edges (items : edge_dict) (adj : adjacency) : outcome adjacency :=
  match items with
  | [] => Returns adj
  | ((u, v), _) :: rest =>
      adj1 <- adj_add adj u v ;;
      adj2 <- adj_add adj1 v u ;;
      add_edges rest adj2
  end.

(** [{u for (u, v), cnt in edge_count.items() if cnt == 1 for u in (u, v)}] *)
Definition boundary_step (b : list Z) (item : edge * nat) : list Z :=
  let '((u, v), cnt) := item in
  if (cnt =? 1)%nat then set_add v (set_add u b) else b.

Definition boundary_of (items : edge_dict) : list Z :=
  fold_left boundary_step items [].

(** Lines 271 to 288 of src/main.py. *)
Definition build_connectivity (N : nat) (faces : list (list Z))
  : outcome (adjacency * list Z) :=
  let edge_count := count_edges faces in
  adj <- add_edges edge_count (repeat [] N) ;;
  Returns (adj, boundary_of edge_count).

(** ** Arithmetic of the point array *)

Class Scalar (T : Type) : Type := {
  s_zero : T;
  s_add : T -> T -> T;
  s_sub : T -> T -> T;
  s_mul : T -> T -> T;
  s_div : T -> T -> T;
  s_of_Z : Z -> T
}.

(** A row of the (N, 3) point array. *)
Record point (T : Type) : Type := mkPoint { px : T; py : T; pz : T }.

Arguments mkPoint {T} px py pz.
Arguments px {T} p.
Arguments py {T} p.
Arguments pz {T} p.

Inductive axis : Type := X | Y | Z3.

Definition coord {T : Type} (a : axis) (p : point T) : T :=
  match a with
  | X => px p
  | Y => py p
  | Z3 => pz p
  end.

Section Relaxation.

Context {T : Type} {ST : Scalar T}.

Definition p_zero : point T := mkPoint s_zero s_zero s_zero.

Definition p_add (p q : point T) : point T :=
  mkPoint (s_add (px p) (px q)) (s_add (py p) (py q)) (s_add (pz p) (pz q)).

Definition p_sub (p q : point T) : point T :=
  mkPoint (s_sub (px p) (px q)) (s_sub (py p) (py q)) (s_sub (pz p) (pz q)).

(** [lambd * p] *)
Definition p_scale (k : T) (p : point T) : point T :=
  mkPoint (s_mul k (px p)) (s_mul k (py p)) (s_mul k (pz p)).

(** [p / k] *)
Definition p_div (p : point T) (k : T) : point T :=
  mkPoint (s_div (px p) k) (s_div (py p) k) (s_div (pz p) k).

(** [np.add.reduce(rows, axis=0)]: the rows are added one after the other,
    starting from the first one. *)
Definition p_sum (rows : list (point T)) : point T :=
  match rows with
  | [] => p_zero
  | r :: rest => fold_left p_add rest r
  end.

(** [np.mean(rows, axis=0)] *)
Definition p_mean (rows : list (point T)) : point T :=
  p_div (p_sum rows) (s_of_Z (Z.of_nat (length rows))).

(** [new_pts[nbr_indices]] *)
Definition gather (pts : list (point T)) (nbr_indices : list Z) : list (point T) :=
  map (fun j => nth (Z.to_nat j) pts p_zero) nbr_indices.

(** The test of line 294: a boundary vertex or a vertex without neighbour. *)
Definition is_fixed (adj : adjacency) (boundary_verts : list Z) (idx : nat) : bool :=
  in_set (Z.of_nat idx) boundary_verts || (length (nth idx adj []) =? 0)%nat.

(** The right-hand side of line 299. *)
Definition moved (lambd : T) (adj : adjacency) (new_pts : list (point T)) (idx : nat)
  : point T :=
  let nbr_indices := nth idx adj [] in
  let nbr_avg := p_mean (gather new_pts nbr_indices) in
  let old := nth idx new_pts p_zero in
  p_add old (p_scale lambd (p_sub nbr_avg old)).

(** The body of [for idx in range(N)]: reads [new_pts], writes [temp]. *)
Definition relax_vertex (lambd : T) (adj : adjacency) (boundary_verts : list Z)
  (new_pts temp : list (point T)) (idx : nat) : list (point T) :=
  if is_fixed adj boundary_verts idx then temp
  else update idx (moved lambd adj new_pts idx) temp.

(** The vertices visited in a given order; the code visits [range(N)]. *)
Definition sweep (lambd : T) (adj : adjacency) (boundary_verts : list Z)
  (order : list nat) (new_pts : list (point T)) : list (point T) :=
  fold_left (relax_vertex lambd adj boundary_verts new_pts) order new_pts.

(** The body of [for _ in range(iterations)]. *)
Definition relax_pass (lambd : T) (adj : adjacency) (boundary_verts : list Z)
  (new_pts : list (point T)) : list (point T) :=
  sweep lambd adj boundary_verts (seq 0 (length new_pts)) new_pts.

(** [range(iterations)] is empty when [iterations <= 0]. *)
Definition relax (lambd : T) (adj : adjacency) (boundary_verts : list Z)
  (iterations : Z) (points : list (point T)) : list (point T) :=
  Nat.iter (Z.to_nat iterations) (relax_pass lambd adj boundary_verts) points.

Definition _laplacian_smooth (points : list (point T)) (faces_arr : list Z)
  (lambd : T) (iterations : Z) : outcome (list (point T)) :=
  faces <- parse_faces faces_arr ;;
  conn <- build_connectivity (length points) faces ;;
  Returns (relax lambd (fst conn) (snd conn) iterations points).

(** [list(adj[idx])] lists a set in the order of its hash table, which is not
    the order of insertion in general.  An iteration order lists every set
    with the same elements. *)
Definition iteration_order (order : list Z -> list Z) : Prop :=
  forall s, Permutation (order s) s.

(** The call when [list(s)] is [order s]: the loop reads the neighbours of
    every vertex in that order.  [_laplacian_smooth] is the call for the
    order of insertion. *)
Definition _laplacian_smooth_in (order : list Z -> list Z)
  (points : list (point T)) (faces_arr : list Z) (lambd : T) (iterations : Z)
  : outcome (list (point T)) :=
  faces <- parse_faces faces_arr ;;
  conn <- build_connectivity (length points) faces ;;
  Returns (relax lambd (map order (fst conn)) (snd conn) iterations points).

(** The update of one pass in the words of the specification: every vertex
    outside the boundary set and with a neighbour gets
    [old + lambda * (neighbor_mean - old)], all read from the previous
    array; the others keep their position. *)
Definition jacobi_pass (lambd : T) (adj : adjacency) (boundary_verts : list Z)
  (prev : list (point T)) : list (point T) :=
  map (fun idx =>
         let old := nth idx prev p_zero in
         if is_fixed adj boundary_verts idx then old
         else
           let neighbor_mean := p_mean (gather prev (nth idx adj [])) in
           p_add old (p_scale lambd (p_sub neighbor_mean old)))
      (seq 0 (length prev)).

(** A mesh as [apply_smoothing] sees it: [mesh.points] and [mesh.faces]. *)
Record PolyData : Type := mkPolyData {
  points : list (point T);
  faces : list Z
}.

(** [apply_smoothing], as far as [self.smoothed_mesh] is concerned: nothing
    is done without a loaded mesh; the sliders give [lambda] in hundredths
    and the iteration count. *)
Definition apply_smoothing (original_mesh : option PolyData)
  (lambda_slider iter_slider : Z) : outcome (option PolyData) :=
  match original_mesh with
  | None => Returns None
  | Some mesh =>
      let lambd := s_div (s_of_Z lambda_slider) (s_of_Z 100) in
      let iterations := iter_slider in
      new_points <- _laplacian_smooth (points mesh) (faces mesh) lambd iterations ;;
      Returns (Some (mkPolyData new_points (faces mesh)))
  end.

End Relaxation.

Arguments PolyData T : clear implicits.

(** ** The two arithmetics *)

(** IEEE-754 binary64, round to nearest even: 53 bits of mantissa, infinities
    at exponent 1024. *)
Definition f64 : Type := spec_float.

Definition f64_of_Z (z : Z) : f64 := binary_normalize 53 1024 z 0 false.

#[export] Instance F64 : Scalar f64 := {
  s_zero := S754_zero false;
  s_add := SFadd 53 1024;
  s_sub := SFsub 53 1024;
  s_mul := SFmul 53 1024;
  s_div := SFdiv 53 1024;
  s_of_Z := f64_of_Z
}.

(** The Python literal [a / b] for integers [a] and [b], e.g. [0.1]. *)
Definition f64_ratio (a b : Z) : f64 := SFdiv 53 1024 (f64_of_Z a) (f64_of_Z b).

(** Neither infinite nor NaN. *)
Definition f64_finite (x : f64) : bool :=
  match x with
  | S754_zero _ | S754_finite _ _ _ => true
  | S754_infinity _ | S754_nan => false
  end.

Definition f64_is_zero (x : f64) : bool :=
  match x with
  | S754_zero _ => true
  | _ => false
  end.

(** Equal, or two zeros of any sign: what [==] gives on floats that are
    not NaN, and bit equality on NaN. *)
Definition same_value (x y : f64) : Prop :=
  x = y \/ (f64_is_zero x = true /\ f64_is_zero y = true).

Definition p_finite (p : point f64) : bool :=
  f64_finite (px p) && f64_finite (py p) && f64_finite (pz p).

(** In one pass, every difference [nbr_avg - new_pts[idx]] that the loop
    computes is finite: no overflow, no infinity, no NaN. *)
Definition finite_pass (adj : adjacency) (boundary_verts : list Z)
  (new_pts : list (point f64)) : bool :=
  forallb (fun idx =>
             is_fixed adj boundary_verts idx
             || p_finite (p_sub (p_mean (gather new_pts (nth idx adj [])))
                                (nth idx new_pts p_zero)))
          (seq 0 (length new_pts)).

(** The same in each of [k] successive passes. *)
Fixpoint finite_run (lambd : f64) (adj : adjacency) (boundary_verts : list Z)
  (k : nat) (new_pts : list (point f64)) : bool :=
  match k with
  | O => true
  | S k' =>
      finite_pass adj boundary_verts new_pts
      && finite_run lambd adj boundary_verts k'
           (relax_pass lambd adj boundary_verts new_pts)
  end.

(** Two arrays with the same values at every index and on every axis. *)
Definition same_points (out pts : list (point f64)) : Prop :=
  length out = length pts
  /\ forall (i : nat) (a : axis),
       same_value (coord a (nth i out p_zero)) (coord a (nth i pts p_zero)).

(** Exact rational arithmetic. *)
#[export] Instance QS : Scalar Q := {
  s_zero := 0%Q;
  s_add := Qplus;
  s_sub := Qminus;
  s_mul := Qmult;
  s_div := Qdiv;
  s_of_Z := inject_Z
}.

(** ** The edges of a face list, in the words of the specification *)

(** For each face, every consecutive pair of its vertex cycle, wrap-around
    included, self-edges skipped, the two endpoints sorted. *)
Definition face_edges (face : list Z) : list edge :=
  flat_map (fun j =>
              let v1 := nth j face 0 in
              let v2 := nth ((j + 1) mod length face) face 0 in
              if v1 =? v2 then [] else [sorted_pair v1 v2])
           (seq 0 (length face)).

Definition all_edges (faces : list (list Z)) : list edge :=
  flat_map face_edges faces.

Definition edge_eq_dec (a b : edge) : {a = b} + {a <> b}.
Proof. decide equality; apply Z.eq_dec. Defined.

(** How many faces reference an edge. *)
Definition multiplicity (faces : list (list Z)) (e : edge) : nat :=
  count_occ edge_eq_dec (all_edges faces) e.

(** A valid vertex index of an array of [N] points. *)
Definition valid_index (N : nat) (v : Z) : Prop := 0 <= v < Z.of_nat N.

(** Whether [u] and [v] are keys of [adj]. *)
Definition edge_valid (N : nat) (e : edge) : Prop :=
  valid_index N (fst e) /\ valid_index N (snd e).

Definition in_range (N : nat) (faces : list (list Z)) : Prop :=
  Forall (Forall (valid_index N)) faces.

(** ** Example meshes *)

(** A tetrahedron: four triangles, every edge in two of them. *)
Definition tetra_faces : list (list Z) :=
  [[0; 1; 2]; [0; 3; 1]; [0; 2; 3]; [1; 3; 2]].

(** A flat quad split into two triangles. *)
Definition quad_faces : list (list Z) := [[0; 1; 2]; [0; 2; 3]].

Definition fz (z : Z) : f64 := f64_of_Z z.

Definition tetra_f64 : list (point f64) :=
  [mkPoint (fz 0) (fz 0) (fz 0); mkPoint (fz 1) (fz 0) (fz 0);
   mkPoint (fz 0) (fz 1) (fz 0); mkPoint (fz 0) (fz 0) (fz 1)].

Definition tetra_Q : list (point Q) :=
  [mkPoint 0%Q 0%Q 0%Q; mkPoint 1%Q 0%Q 0%Q;
   mkPoint 0%Q 1%Q 0%Q; mkPoint 0%Q 0%Q 1%Q].

(** Three vertices whose x is about 1e308 and one at the origin: the sum of
    two of the x overflows. *)
Definition tetra_huge : list (point f64) :=
  [mkPoint (fz (10 ^ 308)) (fz 0) (fz 0); mkPoint (fz (10 ^ 308)) (fz 1) (fz 0);
   mkPoint (fz (10 ^ 308)) (fz 0) (fz 1); mkPoint (fz 0) (fz 0) (fz 0)].

(** Vertex 0 at x = 1e16, the other three at x = 1. *)
Definition tetra_far : list (point f64) :=
  [mkPoint (fz (10 ^ 16)) (fz 0) (fz 0); mkPoint (fz 1) (fz 1) (fz 0);
   mkPoint (fz 1) (fz 0) (fz 1); mkPoint (fz 1) (fz 0) (fz 0)].

(** A tetrahedron in the plane x = 0.1. *)
Definition tetra_tenth : list (point f64) :=
  [mkPoint (f64_ratio 1 10) (fz 0) (fz 0); mkPoint (f64_ratio 1 10) (fz 1) (fz 0);
   mkPoint (f64_ratio 1 10) (fz 0) (fz 1); mkPoint (f64_ratio 1 10) (fz 1) (fz 1)].

Definition f64_leb (x y : f64) : bool := SFleb x y.

Definition quad_f64 : list (point f64) :=
  [mkPoint (fz 0) (fz 0) (fz 0); mkPoint (fz 1) (fz 0) (fz 0);
   mkPoint (fz 1) (fz 1) (fz 0); mkPoint (fz 0) (fz 1) (fz 0)].

(** A fan of four triangles around vertex 0, and a sixth vertex that no face
    references. *)
Definition fan_faces : list (list Z) :=
  [[0; 1; 2]; [0; 2; 3]; [0; 3; 4]; [0; 4; 1]].

Definition fan_f64 : list (point f64) :=
  [mkPoint (fz 0) (fz 0) (fz 1); mkPoint (fz 1) (fz 0) (fz 0);
   mkPoint (fz 0) (fz 1) (fz 0); mkPoint (fz (-1)) (fz 0) (fz 0);
   mkPoint (fz 0) (fz (-1)) (fz 0); mkPoint (fz 5) (fz 5) (fz 5)].

Definition tri_f64 : list (point f64) :=
  [mkPoint (fz 0) (fz 0) (fz 0); mkPoint (fz 1) (fz 0) (fz 0);
   mkPoint (fz 0) (fz 1) (fz 0)].

(** ** The window around the core *)

(** ['orig'] and ['smooth'], the two values [self.showing] takes besides
    [None]. *)
Inductive view : Type := ShowOrig | ShowSmooth.

(** An actor of the 3D scene, as [add_mesh] returns it. *)
Definition actor : Type := nat.

Section Window.

Context {T : Type} {ST : Scalar T}.

(** The render widget, as far as the window uses it: [add_mesh] puts a new
    actor for a mesh into the scene and returns it, [remove_actor] takes an
    actor out.  The window wraps every [remove_actor] in [try/except: pass],
    so a removal never stops a handler. *)
Record Plotter : Type := mkPlotter {
  actors : list (actor * PolyData T);
  fresh : actor
}.

Definition add_mesh (p : Plotter) (mesh : PolyData T) : actor * Plotter :=
  (fresh p, mkPlotter (actors p ++ [(fresh p, mesh)]) (S (fresh p))).

Definition remove_actor (p : Plotter) (a : actor) : Plotter :=
  mkPlotter (filter (fun am => negb (fst am =? a)%nat) (actors p)) (fresh p).

(** [if self.x_actor: try: remove_actor(self.x_actor) except: pass] *)
Definition remove_if_set (p : Plotter) (a : option actor) : Plotter :=
  match a with
  | Some a' => remove_actor p a'
  | None => p
  end.

(** The widgets the handlers switch: the four parameter widgets and the
    apply button (enabled together), the preview combo box with its current
    index, and the save button. *)
Record Widgets : Type := mkWidgets {
  controls_enabled : bool;
  preview_enabled : bool;
  preview_index : Z;
  save_enabled : bool
}.

(** The attributes of [LaplacianSmoothingApp], with the scene and the
    widgets. *)
Record Window : Type := mkWindow {
  original_mesh : option (PolyData T);
  smoothed_mesh : option (PolyData T);
  orig_actor : option actor;
  smooth_actor : option actor;
  showing : option view;
  plotter : Plotter;
  widgets : Widgets
}.

(** The window after [__init__]. *)
Definition init_window : Window :=
  mkWindow None None None None None (mkPlotter [] 0%nat)
           (mkWidgets false false 0 false).

Definition with_widgets (w : Window) (ws : Widgets) : Window :=
  mkWindow (original_mesh w) (smoothed_mesh w) (orig_actor w) (smooth_actor w)
           (showing w) (plotter w) ws.

Definition showing_is (w : Window) (v : view) : bool :=
  match showing w, v with
  | Some ShowOrig, ShowOrig | Some ShowSmooth, ShowSmooth => true
  | _, _ => false
  end.

(** [update_view(index)]; [set_current_index] stands for
    [self.preview_combo.setCurrentIndex]. *)
Definition update_view_with (set_current_index : Window -> Z -> Window)
  (w : Window) (index : Z) : Window :=
  match original_mesh w with
  | None => w
  | Some original =>
      if (index =? 0) && negb (showing_is w ShowOrig) then
        let p := remove_if_set (plotter w) (smooth_actor w) in
        let '(a, p') := add_mesh p original in
        mkWindow (original_mesh w) (smoothed_mesh w) (Some a) (smooth_actor w)
                 (Some ShowOrig) p' (widgets w)
      else if (index =? 1) && negb (showing_is w ShowSmooth) then
        match smoothed_mesh w with
        | None => set_current_index w 0
        | Some smoothed =>
            let p := remove_if_set (plotter w) (orig_actor w) in
            let '(a, p') := add_mesh p smoothed in
            mkWindow (original_mesh w) (smoothed_mesh w) (orig_actor w) (Some a)
                     (Some ShowSmooth) p' (widgets w)
        end
      else w
  end.

(** [setCurrentIndex(index)] of the combo box: the index is stored and, when
    it has changed, [currentIndexChanged] calls the connected slot. *)
Definition set_current_index_with (slot : Window -> Z -> Window)
  (w : Window) (index : Z) : Window :=
  if index =? preview_index (widgets w) then w
  else
    let ws := widgets w in
    slot (with_widgets w (mkWidgets (controls_enabled ws) (preview_enabled ws)
                                    index (save_enabled ws)))
         index.

(** [update_view] calls [setCurrentIndex(0)], which calls [update_view(0)],
    which calls nothing: two levels are the whole recursion. *)
Definition update_view_nested : Window -> Z -> Window :=
  update_view_with (fun w _ => w).

Definition update_view : Window -> Z -> Window :=
  update_view_with (set_current_index_with update_view_nested).

Definition setCurrentIndex : Window -> Z -> Window :=
  set_current_index_with update_view.

(** [load_model]; [picked] is the mesh that the file dialog, [pv.read] and
    [extract_surface] deliver, [None] when the dialog is cancelled or the
    file cannot be read. *)
Definition load_model (w : Window) (picked : option (PolyData T)) : Window :=
  match picked with
  | None => w
  | Some mesh =>
      let p1 := remove_if_set (plotter w) (orig_actor w) in
      let p2 := remove_if_set p1 (smooth_actor w) in
      let '(a, p3) := add_mesh p2 mesh in
      let w1 := mkWindow (Some mesh) None (Some a) None (Some ShowOrig) p3
                         (mkWidgets true false (preview_index (widgets w))
                                    (save_enabled (widgets w))) in
      let w2 := setCurrentIndex w1 0 in
      let ws := widgets w2 in
      with_widgets w2 (mkWidgets (controls_enabled ws) (preview_enabled ws)
                                 (preview_index ws) false)
  end.

(** [apply_smoothing] as a whole; [lambda_value] and [iter_value] are what
    the two sliders hold. *)
Definition apply_smoothing_slot (w : Window) (lambda_value iter_value : Z)
  : outcome Window :=
  smoothed <- apply_smoothing (original_mesh w) lambda_value iter_value ;;
  match smoothed with
  | None => Returns w
  | Some mesh =>
      let p1 := remove_if_set (plotter w) (orig_actor w) in
      let p2 := remove_if_set p1 (smooth_actor w) in
      let '(a, p3) := add_mesh p2 mesh in
      let w1 := mkWindow (original_mesh w) (Some mesh) None (Some a)
                         (Some ShowSmooth) p3
                         (mkWidgets (controls_enabled (widgets w)) true
                                    (preview_index (widgets w))
                                    (save_enabled (widgets w))) in
      let w2 := setCurrentIndex w1 1 in
      let ws := widgets w2 in
      Returns (with_widgets w2 (mkWidgets (controls_enabled ws) (preview_enabled ws)
                                          (preview_index ws) true))
  end.

(** What the user does: load a file, press the apply button, pick an entry
    of the preview combo box. *)
Inductive event : Type :=
| Load (picked : option (PolyData T))
| Apply (lambda_value iter_value : Z)
| Select (index : Z).

Definition handle (w : Window) (e : event) : outcome Window :=
  match e with
  | Load picked => Returns (load_model w picked)
  | Apply lambda_value iter_value => apply_smoothing_slot w lambda_value iter_value
  | Select index => Returns (setCurrentIndex w index)
  end.

(** The events one after the other, up to the first that raises. *)
Fixpoint run (w : Window) (events : list event) : outcome Window :=
  match events with
  | [] => Returns w
  | e :: rest => w' <- handle w e ;; run w' rest
  end.

(** The combo box has two entries. *)
Definition possible (e : event) : Prop :=
  match e with
  | Select index => index = 0 \/ index = 1
  | _ => True
  end.

(** The mesh on display: one actor, the one the window holds for what
    [showing] names. *)
Definition displays (w : Window) : Prop :=
  match original_mesh w with
  | None => actors (plotter w) = [] /\ showing w = None /\ smoothed_mesh w = None
  | Some original =>
      match showing w with
      | Some ShowOrig =>
          exists a, orig_actor w = Some a /\ actors (plotter w) = [(a, original)]
      | Some ShowSmooth =>
          exists a smoothed,
            smooth_actor w = Some a /\ smoothed_mesh w = Some smoothed
            /\ actors (plotter w) = [(a, smoothed)]
      | None => False
      end
  end.

(** The smoothed mesh comes from the mesh that is loaded now. *)
Definition smoothed_from_original (w : Window) : Prop :=
  forall smoothed, smoothed_mesh w = Some smoothed ->
    exists lambda_value iter_value,
      apply_smoothing (original_mesh w) lambda_value iter_value
      = Returns (Some smoothed).

(** The state of the buttons and of the combo box. *)
Definition widgets_agree (w : Window) : Prop :=
  let ws := widgets w in
  (controls_enabled ws = true <-> original_mesh w <> None)
  /\ (preview_enabled ws = true <-> smoothed_mesh w <> None)
  /\ (save_enabled ws = true <-> smoothed_mesh w <> None)
  /\ (original_mesh w <> None ->
      (preview_index ws = 1 <-> showing w = Some ShowSmooth)
      /\ (preview_index ws = 0 <-> showing w = Some ShowOrig)).

(** What holds of the window after every handler. *)
Definition window_ok (w : Window) : Prop :=
  displays w /\ smoothed_from_original w /\ widgets_agree w.

End Window.

Arguments Plotter T : clear implicits.
Arguments Window T : clear implicits.
Arguments event T : clear implicits.

(** ** The two links between the lambda slider and its spin box *)

(** [int(x)] on a float: towards zero; no integer for an infinity or NaN. *)
Definition f64_to_int (x : f64) : option Z :=
  match x with
  | S754_zero _ => Some 0
  | S754_finite s m e =>
      Some (cond_Zopp s (if 0 <=? e then Zpos m * 2 ^ e else Zpos m / 2 ^ (- e)))
  | S754_infinity _ | S754_nan => None
  end.

(** [lambda val: self.lambda_spin.setValue(val/100.0)]: the value handed to
    the spin box. *)
Definition slider_to_spin (val : Z) : f64 :=
  SFdiv 53 1024 (f64_of_Z val) (f64_of_Z 100).

(** [lambda val: self.lambda_slider.setValue(int(val*100))]: the value
    handed to the slider. *)
Definition spin_to_slider (val : f64) : option Z :=
  f64_to_int (SFmul 53 1024 val (f64_of_Z 100)).

(** A session: load the tetrahedron, smooth it, look at the original and at
    the smoothed mesh again, then load the quad. *)
Definition tetra_mesh : PolyData f64 :=
  mkPolyData tetra_f64 (flatten_faces tetra_faces).

Definition quad_mesh : PolyData f64 :=
  mkPolyData quad_f64 (flatten_faces quad_faces).

Definition session : list (event f64) :=
  [Load (Some tetra_mesh); Apply 50 2; Select 0; Select 1; Load (Some quad_mesh)].

Definition session_smoothed : list (event f64) :=
  [Load (Some tetra_mesh); Apply 50 2; Select 0].

(** Whether the [while] loop started at index [i] is over within [fuel]
    turns; the faces collected so far play no part in that. *)
Fixpoint halts (arr : list Z) (fuel : nat) (i : Z) : bool :=
  if Z.of_nat (length arr) <=? i then true
  else
    match fuel with
    | O => false
    | S fuel' =>
        match py_index arr i with
        | Returns n => halts arr fuel' (i + (1 + n))
        | Raises _ => true
        | OutOfFuel => false
        end
    end.

(** The least number of turns after which the loop started at [i] is
    over. *)
Definition turns (arr : list Z) (i : Z) (m : nat) : Prop :=
  halts arr m i = true /\ forall k, (k < m)%nat -> halts arr k i = false.

(** The tetrahedron with a NaN in the x of vertex 0. *)
Definition tetra_nan : list (point f64) :=
  [mkPoint S754_nan (fz 0) (fz 0); mkPoint (fz 1) (fz 0) (fz 0);
   mkPoint (fz 0) (fz 1) (fz 0); mkPoint (fz 0) (fz 0) (fz 1)].

(** * Properties *)

(** ** Arrays and sets *)

Lemma update_length {A : Type} (i : nat) (x : A) (l : list A) :
  length (update i x l) = length l.
Proof.
  revert i; induction l as [|h t IH]; intros [|j]; simpl; auto.
Qed.

Lemma nth_update_same {A : Type} (i : nat) (x d : A) (l : list A) :
  (i < length l)%nat -> nth i (update i x l) d = x.
Proof.
  revert i; induction l as [|h t IH]; intros [|j] Hlt; simpl in *; try lia; auto.
  apply IH; lia.
Qed.

Lemma nth_update_other {A : Type} (i j : nat) (x d : A) (l : list A) :
  i <> j -> nth j (update i x l) d = nth j l d.
Proof.
  revert i j; induction l as [|h t IH]; intros [|i] [|j] Hne; simpl;
    try reflexivity; try congruence.
  apply IH; congruence.
Qed.

Lemma nth_map_seq {A : Type} (f : nat -> A) (n i : nat) (d : A) :
  (i < n)%nat -> nth i (map f (seq 0 n)) d = f i.
Proof.
  intros Hlt; rewrite (nth_indep _ d (f 0%nat))
    by (rewrite length_map, length_seq; exact Hlt).
  rewrite map_nth, seq_nth by exact Hlt; reflexivity.
Qed.

Lemma in_set_true (v : Z) (s : list Z) : in_set v s = true <-> In v s.
Proof.
  unfold in_set; rewrite existsb_exists; split.
  - intros (x & Hin & Heq); apply Z.eqb_eq in Heq; subst; exact Hin.
  - intros Hin; exists v; split; [exact Hin | apply Z.eqb_refl].
Qed.

Lemma in_set_add (w v : Z) (s : list Z) : In w (set_add v s) <-> w = v \/ In w s.
Proof.
  unfold set_add; destruct (in_set v s) eqn:E.
  - apply in_set_true in E; split; [auto | intros [-> | H]; auto].
  - rewrite in_app_iff; simpl; split.
    + intros [H | [H | []]]; auto.
    + intros [-> | H]; auto.
Qed.

(** ** The face parser *)

Lemma py_index_at (pre rest : list Z) (n : Z) :
  py_index (pre ++ n :: rest) (Z.of_nat (length pre)) = Returns n.
Proof.
  unfold py_index; rewrite length_app; simpl length.
  replace ((0 <=? Z.of_nat (length pre)) &&
           (Z.of_nat (length pre) <? Z.of_nat (length pre + S (length rest))))
    with true by (symmetry; apply andb_true_iff; split;
                  [apply Z.leb_le | apply Z.ltb_lt]; lia).
  rewrite Nat2Z.id, app_nth2, Nat.sub_diag by lia; reflexivity.
Qed.

Lemma py_slice_at (pre f rest : list Z) :
  py_slice (pre ++ f ++ rest) (Z.of_nat (length pre))
           (Z.of_nat (length pre) + Z.of_nat (length f)) = f.
Proof.
  unfold py_slice; rewrite !length_app.
  destruct (Z.ltb_spec (Z.of_nat (length pre)) 0); [lia|].
  destruct (Z.ltb_spec (Z.of_nat (length pre) + Z.of_nat (length f)) 0); [lia|].
  rewrite !Z.min_l by lia.
  replace (Z.of_nat (length pre) + Z.of_nat (length f) - Z.of_nat (length pre))
    with (Z.of_nat (length f)) by lia.
  rewrite !Nat2Z.id, skipn_app, skipn_all, Nat.sub_diag; simpl.
  rewrite firstn_app, firstn_all, Nat.sub_diag; simpl; apply app_nil_r.
Qed.

Lemma parse_loop_flatten (fs : list (list Z)) :
  forall (fuel : nat) (pre : list Z) (acc : list (list Z)),
    (length fs <= fuel)%nat ->
    parse_loop fuel (pre ++ flatten_faces fs) (Z.of_nat (length pre)) acc
    = Returns (acc ++ fs).
Proof.
  induction fs as [|f fs IH]; intros fuel pre acc Hfuel.
  - simpl; rewrite !app_nil_r.
    destruct fuel; simpl; rewrite Z.leb_refl; reflexivity.
  - destruct fuel as [|fuel]; [simpl in Hfuel; lia|].
    cbn [flatten_faces flat_map]; fold (flatten_faces fs).
    set (n := Z.of_nat (length f)).
    change ((n :: f) ++ flatten_faces fs) with (n :: (f ++ flatten_faces fs)).
    cbn [parse_loop].
    destruct (Z.leb_spec (Z.of_nat (length (pre ++ n :: f ++ flatten_faces fs)))
                         (Z.of_nat (length pre))) as [Hle|_].
    { rewrite length_app in Hle; simpl in Hle; lia. }
    rewrite py_index_at; cbn [bind].
    assert (Harr : pre ++ n :: f ++ flatten_faces fs
                   = (pre ++ [n]) ++ f ++ flatten_faces fs)
      by (rewrite <- app_assoc; reflexivity).
    rewrite Harr.
    replace (Z.of_nat (length pre) + 1)
      with (Z.of_nat (length (pre ++ [n])))
      by (rewrite length_app; cbn [length]; lia).
    subst n; rewrite py_slice_at.
    replace (Z.of_nat (length pre) + (1 + Z.of_nat (length f)))
      with (Z.of_nat (length ((pre ++ [Z.of_nat (length f)]) ++ f)))
      by (rewrite !length_app; cbn [length]; lia).
    rewrite app_assoc, IH by (simpl in Hfuel; lia).
    rewrite <- app_assoc; reflexivity.
Qed.

(** A well-formed flat array is read back as the faces it lists, whatever
    the vertex indices are. *)
Lemma parse_flatten (fs : list (list Z)) :
  parse_faces (flatten_faces fs) = Returns fs.
Proof.
  unfold parse_faces.
  assert (Hlen : (length fs <= length (flatten_faces fs))%nat).
  { induction fs as [|f fs IH]; simpl; [lia|]. rewrite length_app; lia. }
  apply (parse_loop_flatten fs _ [] []); lia.
Qed.

(** ** The edge dictionary *)

Lemma edge_eqb_eq (a b : edge) : edge_eqb a b = true <-> a = b.
Proof.
  destruct a as [a1 a2], b as [b1 b2]; unfold edge_eqb; simpl.
  rewrite andb_true_iff, !Z.eqb_eq; split.
  - intros [-> ->]; reflexivity.
  - intros H; inversion H; auto.
Qed.

Lemma edge_eqb_refl (a : edge) : edge_eqb a a = true.
Proof. apply edge_eqb_eq; reflexivity. Qed.

Lemma edge_eqb_neq (a b : edge) : edge_eqb a b = false <-> a <> b.
Proof.
  rewrite <- edge_eqb_eq; destruct (edge_eqb a b); split; congruence.
Qed.

Lemma dict_get_set (d : edge_dict) (e e' : edge) (c dflt : nat) :
  dict_get (dict_set d e c) e' dflt
  = if edge_eqb e e' then c else dict_get d e' dflt.
Proof.
  induction d as [|[k c0] rest IH]; simpl.
  - reflexivity.
  - destruct (edge_eqb k e) eqn:Hke; simpl.
    + apply edge_eqb_eq in Hke; subst k.
      destruct (edge_eqb e e'); reflexivity.
    + rewrite IH. destruct (edge_eqb k e') eqn:Hke'; [|reflexivity].
      destruct (edge_eqb e e') eqn:Hee'; [|reflexivity].
      apply edge_eqb_eq in Hke', Hee'; subst.
      rewrite edge_eqb_refl in Hke; discriminate.
Qed.

Lemma dict_set_in (d : edge_dict) (e k : edge) (c c' : nat) :
  In (k, c') (dict_set d e c) -> (k = e /\ c' = c) \/ In (k, c') d.
Proof.
  induction d as [|[k0 c0] rest IH]; simpl.
  - intros [H | []]; inversion H; auto.
  - destruct (edge_eqb k0 e) eqn:Hke; simpl.
    + apply edge_eqb_eq in Hke; subst k0.
      intros [H | H]; [inversion H; auto | auto].
    + intros [H | H]; [auto | destruct (IH H); auto].
Qed.

Lemma dict_set_keys (d : edge_dict) (e k : edge) (c : nat) :
  In k (map fst (dict_set d e c)) <-> k = e \/ In k (map fst d).
Proof.
  induction d as [|[k0 c0] rest IH]; simpl.
  - split; intros [H | H]; auto.
  - destruct (edge_eqb k0 e) eqn:Hke; simpl.
    + apply edge_eqb_eq in Hke; subst k0; intuition congruence.
    + rewrite IH; tauto.
Qed.

Lemma dict_set_nodup (d : edge_dict) (e : edge) (c : nat) :
  NoDup (map fst d) -> NoDup (map fst (dict_set d e c)).
Proof.
  induction d as [|[k0 c0] rest IH]; simpl; intros Hnd.
  - constructor; [intros [] | constructor].
  - inversion Hnd as [|? ? Hnotin Hnd']; subst.
    destruct (edge_eqb k0 e) eqn:Hke; simpl.
    + constructor; assumption.
    + constructor; [|apply IH; assumption].
      rewrite dict_set_keys; intros [H | H]; [|contradiction].
      apply edge_eqb_neq in Hke; congruence.
Qed.

Lemma bump_ok (d : edge_dict) (e : edge) : dict_ok d -> dict_ok (bump d e).
Proof.
  intros [Hnd Hpos]; split.
  - apply dict_set_nodup; assumption.
  - intros k c Hin; apply dict_set_in in Hin as [[_ ->] | Hin]; [lia | eauto].
Qed.

Lemma fold_bump_ok (es : list edge) (d : edge_dict) :
  dict_ok d -> dict_ok (fold_left bump es d).
Proof.
  revert d; induction es as [|e es IH]; simpl; intros d Hd; auto using bump_ok.
Qed.

Lemma dict_get_in (d : edge_dict) (e : edge) (c : nat) :
  NoDup (map fst d) -> In (e, c) d -> dict_get d e 0%nat = c.
Proof.
  induction d as [|[k c0] rest IH]; simpl; intros Hnd Hin; [contradiction|].
  inversion Hnd as [|? ? Hnotin Hnd']; subst.
  destruct Hin as [H | H].
  - inversion H; subst; rewrite edge_eqb_refl; reflexivity.
  - destruct (edge_eqb k e) eqn:Hke; [|auto].
    apply edge_eqb_eq in Hke; subst k.
    exfalso; apply Hnotin; apply (in_map fst) in H; exact H.
Qed.

Lemma in_dict_get (d : edge_dict) (e : edge) :
  (0 < dict_get d e 0)%nat -> In (e, dict_get d e 0%nat) d.
Proof.
  induction d as [|[k c0] rest IH]; simpl; intros Hpos; [lia|].
  destruct (edge_eqb k e) eqn:Hke.
  - apply edge_eqb_eq in Hke; subst k; auto.
  - auto.
Qed.

Lemma dict_get_fold_bump (es : list edge) (d : edge_dict) (e : edge) :
  dict_get (fold_left bump es d) e 0%nat
  = (dict_get d e 0 + count_occ edge_eq_dec es e)%nat.
Proof.
  revert d; induction es as [|e0 es IH]; intros d; simpl; [lia|].
  rewrite IH; unfold bump at 1; rewrite dict_get_set.
  destruct (edge_eq_dec e0 e) as [->|Hne].
  - rewrite edge_eqb_refl; lia.
  - apply edge_eqb_neq in Hne; rewrite Hne; lia.
Qed.

(** The two nested loops count the edges of the face list one by one. *)
Lemma count_face_edges (face : list Z) (d : edge_dict) :
  count_face d face = fold_left bump (face_edges face) d.
Proof.
  unfold count_face, face_edges.
  generalize (seq 0 (length face)) as js.
  intros js; revert d; induction js as [|j js IH]; intros d; simpl; [reflexivity|].
  rewrite fold_left_app, IH; f_equal.
  unfold count_edge_at.
  destruct (nth j face 0 =? nth ((j + 1) mod length face) face 0); reflexivity.
Qed.

Lemma count_edges_all (faces : list (list Z)) :
  count_edges faces = fold_left bump (all_edges faces) [].
Proof.
  unfold count_edges, all_edges.
  generalize (@nil (edge * nat)) as d.
  induction faces as [|f fs IH]; intros d; simpl; [reflexivity|].
  rewrite fold_left_app, IH, count_face_edges; reflexivity.
Qed.

Lemma count_edges_ok (faces : list (list Z)) : dict_ok (count_edges faces).
Proof.
  rewrite count_edges_all; apply fold_bump_ok.
  split; [constructor | intros ? ? []].
Qed.

(** [edge_count] holds exactly the edges of the faces, each with the number
    of times the faces reference it. *)
Lemma count_edges_items (faces : list (list Z)) (e : edge) (c : nat) :
  In (e, c) (count_edges faces) <-> multiplicity faces e = c /\ (0 < c)%nat.
Proof.
  pose proof (count_edges_ok faces) as [Hnd Hpos].
  assert (Hget : dict_get (count_edges faces) e 0%nat = multiplicity faces e).
  { rewrite count_edges_all, dict_get_fold_bump; reflexivity. }
  split.
  - intros Hin; split; [|eauto].
    rewrite <- Hget; apply dict_get_in; assumption.
  - intros [<- Hc]; rewrite <- Hget in *; apply in_dict_get; assumption.
Qed.

Lemma multiplicity_pos (faces : list (list Z)) (e : edge) :
  (0 < multiplicity faces e)%nat <-> In e (all_edges faces).
Proof.
  unfold multiplicity; symmetry; apply count_occ_In.
Qed.

(** ** Boundary set *)

Lemma boundary_fold (items : edge_dict) (b : list Z) (w : Z) :
  In w (fold_left boundary_step items b)
  <-> In w b \/ exists u v, In ((u, v), 1%nat) items /\ (w = u \/ w = v).
Proof.
  revert b; induction items as [|[[u v] c] rest IH]; intros b; simpl.
  - split; [auto | intros [H | (u & v & [] & _)]; exact H].
  - rewrite IH; destruct (Nat.eqb_spec c 1) as [->|Hc].
    + rewrite !in_set_add; split.
      * intros [[-> | [-> | H]] | (u' & v' & Hin & Hw)]; eauto 8.
      * intros [H | (u' & v' & [Heq | Hin] & Hw)]; eauto 8.
        inversion Heq; subst; destruct Hw as [-> | ->]; auto.
    + split.
      * intros [H | (u' & v' & Hin & Hw)]; eauto 8.
      * intros [H | (u' & v' & [Heq | Hin] & Hw)]; eauto 8.
        inversion Heq; subst; congruence.
Qed.

Lemma boundary_of_spec (faces : list (list Z)) (w : Z) :
  In w (boundary_of (count_edges faces))
  <-> exists u v, multiplicity faces (u, v) = 1%nat /\ (w = u \/ w = v).
Proof.
  unfold boundary_of; rewrite boundary_fold; split.
  - intros [[] | (u & v & Hin & Hw)].
    apply count_edges_items in Hin as [Hm _]; eauto.
  - intros (u & v & Hm & Hw); right; exists u, v; split; [|exact Hw].
    apply count_edges_items; split; [exact Hm | lia].
Qed.

(** ** Adjacency map *)

Lemma adj_add_returns (adj adj' : adjacency) (u v : Z) :
  adj_add adj u v = Returns adj' ->
  valid_index (length adj) u /\ length adj' = length adj /\
  forall a b, In b (nth a adj' []) <->
              In b (nth a adj []) \/ (Z.of_nat a = u /\ b = v).
Proof.
  unfold adj_add, valid_index.
  destruct (Z.leb_spec 0 u); destruct (Z.ltb_spec u (Z.of_nat (length adj)));
    simpl; try discriminate.
  intros H'; inversion H'; subst adj'; clear H'.
  split; [lia|]; split; [apply update_length|].
  intros a b; destruct (Nat.eq_dec (Z.to_nat u) a) as [<-|Hne].
  - rewrite nth_update_same by lia; rewrite in_set_add, Z2Nat.id by lia.
    intuition congruence.
  - rewrite nth_update_other by exact Hne.
    split; [auto | intros [Hin | [Ha _]]; [exact Hin | lia]].
Qed.

Lemma adj_add_valid (adj : adjacency) (u v : Z) :
  valid_index (length adj) u -> exists adj', adj_add adj u v = Returns adj'.
Proof.
  unfold adj_add, valid_index; intros [H0 H1].
  destruct (Z.leb_spec 0 u); [|lia].
  destruct (Z.ltb_spec u (Z.of_nat (length adj))); [|lia].
  simpl; eauto.
Qed.

Lemma adj_add_invalid (adj : adjacency) (u v : Z) :
  ~ valid_index (length adj) u -> adj_add adj u v = Raises (KeyError u).
Proof.
  unfold adj_add, valid_index; intros Hbad.
  destruct (Z.leb_spec 0 u); destruct (Z.ltb_spec u (Z.of_nat (length adj)));
    simpl; try reflexivity; lia.
Qed.

Lemma valid_index_dec (N : nat) (v : Z) : {valid_index N v} + {~ valid_index N v}.
Proof.
  unfold valid_index.
  destruct (Z_le_dec 0 v); destruct (Z_lt_dec v (Z.of_nat N)); auto; right; lia.
Qed.

(** The second loop returns exactly when every edge joins two keys of
    [adj]; then the neighbour sets have grown by the edges. *)
Lemma add_edges_returns (items : edge_dict) (adj adj' : adjacency) :
  add_edges items adj = Returns adj' ->
  length adj' = length adj
  /\ (forall e c, In (e, c) items -> edge_valid (length adj) e)
  /\ forall a b, In b (nth a adj' []) <->
       In b (nth a adj []) \/
       exists u v c, In ((u, v), c) items /\
         ((Z.of_nat a = u /\ b = v) \/ (Z.of_nat a = v /\ b = u)).
Proof.
  revert adj; induction items as [|[[u v] c] rest IH]; intros adj; simpl.
  - intros H; inversion H; subst; split; [reflexivity|]; split; [intros ? ? []|].
    intros a b; split; [auto | intros [H' | (? & ? & ? & [] & _)]; exact H'].
  - destruct (adj_add adj u v) as [adj1| |] eqn:E1; simpl; try discriminate.
    destruct (adj_add adj1 v u) as [adj2| |] eqn:E2; simpl; try discriminate.
    intros Hrest.
    apply adj_add_returns in E1 as (Hu & Hl1 & Hn1).
    apply adj_add_returns in E2 as (Hv & Hl2 & Hn2).
    apply IH in Hrest as (Hl & Hvalid & Hn).
    rewrite Hl1 in Hv.
    split; [congruence|]; split.
    + intros e c' [Heq | Hin].
      * inversion Heq; subst; split; assumption.
      * rewrite <- Hl1, <- Hl2; eauto.
    + intros a b; rewrite Hn, Hn2, Hn1; split.
      * intros [[[H | H] | H] | (u' & v' & c' & Hin & H)]; eauto 10.
      * intros [H | (u' & v' & c' & [Heq | Hin] & H)]; eauto 10.
        inversion Heq; subst; tauto.
Qed.

Lemma add_edges_valid (items : edge_dict) (adj : adjacency) :
  (forall e c, In (e, c) items -> edge_valid (length adj) e) ->
  exists adj', add_edges items adj = Returns adj'.
Proof.
  revert adj; induction items as [|[[u v] c] rest IH]; intros adj Hvalid; simpl.
  - eauto.
  - destruct (Hvalid (u, v) c (or_introl eq_refl)) as [Hu Hv]; simpl in Hu, Hv.
    destruct (adj_add_valid adj u v Hu) as [adj1 E1]; rewrite E1; simpl.
    pose proof (adj_add_returns _ _ _ _ E1) as (_ & Hl1 & _).
    rewrite <- Hl1 in Hv.
    destruct (adj_add_valid adj1 v u Hv) as [adj2 E2]; rewrite E2; simpl.
    pose proof (adj_add_returns _ _ _ _ E2) as (_ & Hl2 & _).
    apply IH; intros e c' Hin; rewrite Hl2, Hl1; apply (Hvalid e c'); right; exact Hin.
Qed.

Lemma add_edges_invalid (items : edge_dict) (adj : adjacency) :
  (exists e c, In (e, c) items /\ ~ edge_valid (length adj) e) ->
  exists k, add_edges items adj = Raises (KeyError k) /\ ~ valid_index (length adj) k.
Proof.
  revert adj; induction items as [|[[u v] c] rest IH]; intros adj; simpl.
  - intros (e & c & [] & _).
  - intros (e & c' & Hin & Hbad).
    destruct (valid_index_dec (length adj) u) as [Hu|Hu].
    2:{ rewrite (adj_add_invalid adj u v Hu); simpl; eauto. }
    destruct (adj_add_valid adj u v Hu) as [adj1 E1]; rewrite E1; simpl.
    pose proof (adj_add_returns _ _ _ _ E1) as (_ & Hl1 & _).
    destruct (valid_index_dec (length adj) v) as [Hv|Hv].
    2:{ rewrite <- Hl1 in Hv; rewrite (adj_add_invalid adj1 v u Hv); simpl.
        rewrite Hl1 in Hv; eauto. }
    rewrite <- Hl1 in Hv.
    destruct (adj_add_valid adj1 v u Hv) as [adj2 E2]; rewrite E2; simpl.
    pose proof (adj_add_returns _ _ _ _ E2) as (_ & Hl2 & _).
    destruct Hin as [Heq | Hin].
    + inversion Heq; subst; exfalso; apply Hbad; split; simpl; congruence.
    + destruct (IH adj2) as (k & Hk & Hkbad).
      * exists e, c'; split; [exact Hin | congruence].
      * exists k; split; [exact Hk | congruence].
Qed.

(** ** Edges and faces *)

Lemma sorted_pair_ends (v1 v2 : Z) :
  sorted_pair v1 v2 = (v1, v2) \/ sorted_pair v1 v2 = (v2, v1).
Proof. unfold sorted_pair; destruct (v1 <=? v2); auto. Qed.

Lemma face_edges_in (face : list Z) (e : edge) :
  In e (face_edges face) <->
  exists j, (j < length face)%nat /\
            nth j face 0 <> nth ((j + 1) mod length face) face 0 /\
            e = sorted_pair (nth j face 0) (nth ((j + 1) mod length face) face 0).
Proof.
  unfold face_edges; rewrite in_flat_map; split.
  - intros (j & Hj & Hin); apply in_seq in Hj; exists j; split; [lia|].
    destruct (Z.eqb_spec (nth j face 0) (nth ((j + 1) mod length face) face 0));
      [destruct Hin|].
    destruct Hin as [<- | []]; auto.
  - intros (j & Hj & Hne & ->); exists j; split; [apply in_seq; lia|].
    destruct (Z.eqb_spec (nth j face 0) (nth ((j + 1) mod length face) face 0));
      [contradiction | left; reflexivity].
Qed.

(** Both endpoints of an edge are vertices of one face. *)
Lemma all_edges_ends (faces : list (list Z)) (e : edge) :
  In e (all_edges faces) ->
  exists face, In face faces /\ In (fst e) face /\ In (snd e) face.
Proof.
  unfold all_edges; rewrite in_flat_map; intros (face & Hf & Hin).
  exists face; split; [exact Hf|].
  apply face_edges_in in Hin as (j & Hj & _ & ->).
  assert (H1 : In (nth j face 0) face) by (apply nth_In; exact Hj).
  assert (H2 : In (nth ((j + 1) mod length face) face 0) face).
  { apply nth_In; apply Nat.mod_upper_bound; lia. }
  destruct (sorted_pair_ends (nth j face 0) (nth ((j + 1) mod length face) face 0))
    as [-> | ->]; simpl; auto.
Qed.

Lemma in_range_edges (N : nat) (faces : list (list Z)) :
  in_range N faces -> forall e, In e (all_edges faces) -> edge_valid N e.
Proof.
  intros Hr e Hin; apply all_edges_ends in Hin as (face & Hf & H1 & H2).
  unfold in_range in Hr; rewrite Forall_forall in Hr.
  specialize (Hr face Hf); rewrite Forall_forall in Hr.
  split; auto.
Qed.

Lemma count_edges_keys (faces : list (list Z)) (e : edge) (c : nat) :
  In (e, c) (count_edges faces) -> In e (all_edges faces).
Proof.
  intros Hin; apply count_edges_items in Hin as [<- Hpos].
  apply multiplicity_pos; exact Hpos.
Qed.

(** ** The connectivity pass as a whole *)

Lemma build_valid (N : nat) (faces : list (list Z)) :
  (forall e, In e (all_edges faces) -> edge_valid N e) ->
  exists adj, build_connectivity N faces
              = Returns (adj, boundary_of (count_edges faces)).
Proof.
  intros Hvalid; unfold build_connectivity.
  destruct (add_edges_valid (count_edges faces) (repeat [] N)) as [adj Hadj].
  - intros e c Hin; rewrite repeat_length; eauto using count_edges_keys.
  - rewrite Hadj; simpl; eauto.
Qed.

Lemma build_invalid (N : nat) (faces : list (list Z)) :
  (exists e, In e (all_edges faces) /\ ~ edge_valid N e) ->
  exists k, build_connectivity N faces = Raises (KeyError k) /\ ~ valid_index N k.
Proof.
  intros (e & Hin & Hbad); unfold build_connectivity.
  destruct (add_edges_invalid (count_edges faces) (repeat [] N)) as (k & Hk & Hkbad).
  - exists e, (multiplicity faces e); rewrite repeat_length; split; [|exact Hbad].
    apply count_edges_items; split; [reflexivity | apply multiplicity_pos; exact Hin].
  - rewrite repeat_length in Hkbad; rewrite Hk; simpl; eauto.
Qed.

Lemma nth_repeat_nil (N a : nat) : nth a (repeat (@nil Z) N) [] = [].
Proof.
  revert a; induction N as [|N IH]; intros [|a]; simpl; auto.
Qed.

(** What a returned connectivity looks like: one neighbour set per vertex,
    [v] a neighbour of [a] exactly when an edge of the faces joins them, and
    every neighbour a valid index. *)
Lemma build_returns (N : nat) (faces : list (list Z)) (adj : adjacency)
  (bnd : list Z) :
  build_connectivity N faces = Returns (adj, bnd) ->
  length adj = N
  /\ bnd = boundary_of (count_edges faces)
  /\ (forall a b, In b (nth a adj []) <->
        In (Z.of_nat a, b) (all_edges faces) \/ In (b, Z.of_nat a) (all_edges faces))
  /\ (forall a b, In b (nth a adj []) -> valid_index N b).
Proof.
  unfold build_connectivity.
  destruct (add_edges (count_edges faces) (repeat [] N)) as [adj0| |] eqn:E;
    simpl; try discriminate.
  intros H; inversion H; subst adj0 bnd; clear H.
  apply add_edges_returns in E as (Hlen & Hvalid & Hn).
  rewrite repeat_length in Hlen, Hvalid.
  assert (Hnb : forall a b, In b (nth a adj []) <->
            In (Z.of_nat a, b) (all_edges faces) \/ In (b, Z.of_nat a) (all_edges faces)).
  { intros a b; rewrite Hn, nth_repeat_nil; split.
    - intros [[] | (u & v & c & Hin & [[<- <-] | [<- <-]])];
        eauto using count_edges_keys.
    - intros [Hin | Hin]; right; apply multiplicity_pos in Hin.
      + exists (Z.of_nat a), b, (multiplicity faces (Z.of_nat a, b)); split; [|auto].
        apply count_edges_items; auto.
      + exists b, (Z.of_nat a), (multiplicity faces (b, Z.of_nat a)); split; [|auto].
        apply count_edges_items; auto. }
  split; [exact Hlen|]; split; [reflexivity|]; split; [exact Hnb|].
  intros a b Hin; apply Hnb in Hin as [Hin | Hin]; apply multiplicity_pos in Hin.
  - apply (Hvalid (Z.of_nat a, b) (multiplicity faces (Z.of_nat a, b))).
    apply count_edges_items; auto.
  - apply (Hvalid (b, Z.of_nat a) (multiplicity faces (b, Z.of_nat a))).
    apply count_edges_items; auto.
Qed.

(** ** One pass and K passes, for any arithmetic *)

Section RelaxationFacts.

Context {T : Type} {ST : Scalar T}.

Variable lambd : T.
Variable adj : adjacency.
Variable boundary_verts : list Z.

Lemma sweep_length (prev : list (point T)) (order : list nat) (temp : list (point T)) :
  length (fold_left (relax_vertex lambd adj boundary_verts prev) order temp) = length temp.
Proof.
  revert temp; induction order as [|j order IH]; intros temp; simpl; [reflexivity|].
  rewrite IH; unfold relax_vertex.
  destruct (is_fixed adj boundary_verts j); [reflexivity | apply update_length].
Qed.

Lemma sweep_untouched (prev : list (point T)) (order : list nat)
  (temp : list (point T)) (i : nat) (d : point T) :
  ~ In i order -> nth i (fold_left (relax_vertex lambd adj boundary_verts prev) order temp) d = nth i temp d.
Proof.
  revert temp; induction order as [|j order IH]; intros temp Hnotin; simpl;
    [reflexivity|].
  rewrite IH by (intros H; apply Hnotin; right; exact H).
  unfold relax_vertex; destruct (is_fixed adj boundary_verts j); [reflexivity|].
  apply nth_update_other; intros ->; apply Hnotin; left; reflexivity.
Qed.

(** A visited vertex holds its new position whatever was visited before or
    after it: the new position is computed from [prev] alone. *)
Lemma sweep_visited (prev : list (point T)) (order : list nat)
  (temp : list (point T)) (i : nat) (d : point T) :
  In i order -> (i < length temp)%nat ->
  nth i (fold_left (relax_vertex lambd adj boundary_verts prev) order temp) d
  = if is_fixed adj boundary_verts i then nth i temp d
    else moved lambd adj prev i.
Proof.
  revert temp; induction order as [|j order IH]; intros temp Hin Hlt;
    [destruct Hin|].
  simpl.
  assert (Hlen : length (relax_vertex lambd adj boundary_verts prev temp j) = length temp).
  { unfold relax_vertex; destruct (is_fixed adj boundary_verts j);
      [reflexivity | apply update_length]. }
  destruct (in_dec Nat.eq_dec i order) as [Hi | Hi].
  - rewrite IH by (auto; lia).
    destruct (is_fixed adj boundary_verts i) eqn:Hfix; [|reflexivity].
    unfold relax_vertex; destruct (Nat.eq_dec j i) as [-> | Hne].
    + rewrite Hfix; reflexivity.
    + destruct (is_fixed adj boundary_verts j); [reflexivity|].
      apply nth_update_other; exact Hne.
  - destruct Hin as [-> | Hin]; [|contradiction].
    rewrite sweep_untouched by exact Hi.
    unfold relax_vertex; destruct (is_fixed adj boundary_verts i); [reflexivity|].
    apply nth_update_same; exact Hlt.
Qed.

Lemma jacobi_pass_length (prev : list (point T)) :
  length (jacobi_pass lambd adj boundary_verts prev) = length prev.
Proof. unfold jacobi_pass; rewrite length_map, length_seq; reflexivity. Qed.

Lemma jacobi_pass_nth (prev : list (point T)) (i : nat) (d : point T) :
  (i < length prev)%nat ->
  nth i (jacobi_pass lambd adj boundary_verts prev) d
  = if is_fixed adj boundary_verts i then nth i prev d
    else moved lambd adj prev i.
Proof.
  intros Hlt; unfold jacobi_pass; rewrite nth_map_seq by exact Hlt.
  destruct (is_fixed adj boundary_verts i); [apply nth_indep; exact Hlt | reflexivity].
Qed.

(** Visiting every vertex, in any order, gives the pass of the
    specification. *)
Lemma sweep_any_order (prev : list (point T)) (order : list nat) :
  (forall i, (i < length prev)%nat -> In i order) ->
  sweep lambd adj boundary_verts order prev
  = jacobi_pass lambd adj boundary_verts prev.
Proof.
  intros Hall; unfold sweep.
  apply (nth_ext _ _ p_zero p_zero).
  - rewrite sweep_length, jacobi_pass_length; reflexivity.
  - intros i Hi; rewrite sweep_length in Hi.
    rewrite sweep_visited, jacobi_pass_nth by auto; reflexivity.
Qed.

Lemma relax_pass_jacobi (prev : list (point T)) :
  relax_pass lambd adj boundary_verts prev
  = jacobi_pass lambd adj boundary_verts prev.
Proof.
  apply sweep_any_order; intros i Hi; apply in_seq; lia.
Qed.

Lemma relax_jacobi (iterations : Z) (pts : list (point T)) :
  relax lambd adj boundary_verts iterations pts
  = Nat.iter (Z.to_nat iterations) (jacobi_pass lambd adj boundary_verts) pts.
Proof.
  unfold relax; induction (Z.to_nat iterations) as [|k IH]; simpl;
    [reflexivity|].
  rewrite relax_pass_jacobi, IH; reflexivity.
Qed.

Lemma relax_length (iterations : Z) (pts : list (point T)) :
  length (relax lambd adj boundary_verts iterations pts) = length pts.
Proof.
  rewrite relax_jacobi; induction (Z.to_nat iterations) as [|k IH]; simpl;
    [reflexivity|].
  rewrite jacobi_pass_length; exact IH.
Qed.


(** A fixed vertex keeps its position through every pass. *)
Lemma relax_fixed (iterations : Z) (pts : list (point T)) (i : nat) (d : point T) :
  is_fixed adj boundary_verts i = true ->
  nth i (relax lambd adj boundary_verts iterations pts) d = nth i pts d.
Proof.
  intros Hfix; rewrite relax_jacobi.
  induction (Z.to_nat iterations) as [|k IH]; simpl; [reflexivity|].
  destruct (Nat.lt_ge_cases i (length pts)) as [Hlt | Hge].
  - rewrite jacobi_pass_nth, Hfix; [exact IH|].
    clear IH; induction k as [|k IHk]; simpl; [exact Hlt|].
    rewrite jacobi_pass_length; exact IHk.
  - rewrite !nth_overflow; [reflexivity | exact Hge |].
    rewrite jacobi_pass_length.
    clear IH; induction k as [|k IHk]; simpl; [exact Hge|].
    rewrite jacobi_pass_length; exact IHk.
Qed.

End RelaxationFacts.

(** When no vertex has a neighbour, every pass is the identity. *)
Lemma relax_all_fixed {T : Type} {ST : Scalar T} (lambd : T) (adj : adjacency)
  (bnd : list Z) (iterations : Z) (pts : list (point T)) :
  (forall i, is_fixed adj bnd i = true) ->
  relax lambd adj bnd iterations pts = pts.
Proof.
  intros Hfix; apply (nth_ext _ _ p_zero p_zero).
  - apply relax_length.
  - intros i _; apply relax_fixed; apply Hfix.
Qed.

(** The call on a well-formed flat array, faces parsed. *)
Lemma smooth_flatten {T : Type} {ST : Scalar T} (pts : list (point T))
  (fs : list (list Z)) (lambd : T) (iterations : Z) :
  _laplacian_smooth pts (flatten_faces fs) lambd iterations
  = (conn <- build_connectivity (length pts) fs ;;
     Returns (relax lambd (fst conn) (snd conn) iterations pts)).
Proof. unfold _laplacian_smooth; rewrite parse_flatten; reflexivity. Qed.

(** ** The claims on the connectivity pass and on the shape of the result *)


Lemma nth_error_of_nth {A : Type} (l l' : list A) (i : nat) :
  length l = length l' -> (forall d, nth i l d = nth i l' d) ->
  nth_error l i = nth_error l' i.
Proof.
  intros Hlen Hnth; destruct (Nat.lt_ge_cases i (length l)) as [Hlt | Hge].
  - destruct (nth_error l i) as [x|] eqn:E;
      [|apply nth_error_None in E; lia].
    rewrite (nth_error_nth' l' x) by lia.
    rewrite <- Hnth; f_equal; symmetry; apply nth_error_nth; exact E.
  - rewrite (proj2 (nth_error_None l i)) by exact Hge.
    symmetry; apply nth_error_None; lia.
Qed.

Lemma unreferenced_no_neighbour (N : nat) (fs : list (list Z)) (adj : adjacency)
  (bnd : list Z) (idx : nat) :
  build_connectivity N fs = Returns (adj, bnd) ->
  (forall f, In f fs -> ~ In (Z.of_nat idx) f) ->
  nth idx adj [] = [].
Proof.
  intros Hb Hno; apply build_returns in Hb as (_ & _ & Hnb & _).
  destruct (nth idx adj []) as [|b l] eqn:E; [reflexivity|exfalso].
  assert (Hin : In b (nth idx adj [])) by (rewrite E; left; reflexivity).
  apply Hnb in Hin as [Hin | Hin];
    apply all_edges_ends in Hin as (f & Hf & H1 & H2); simpl in *;
    eapply Hno; eauto.
Qed.

(** C2. A vertex of the boundary set, and a vertex with an empty neighbour
    set (in particular one that no face references), has in the output
    array the position it has in the input array, for every [lambda] and
    every iteration count. *)
Theorem fixed_vertices_unchanged {T : Type} {ST : Scalar T} (pts : list (point T))
  (fs : list (list Z)) (lambd : T) (K : Z) (adj : adjacency) (bnd : list Z)
  (out : list (point T)) (idx : nat) :
  build_connectivity (length pts) fs = Returns (adj, bnd) ->
  _laplacian_smooth pts (flatten_faces fs) lambd K = Returns out ->
  In (Z.of_nat idx) bnd \/ nth idx adj [] = []
    \/ (forall f, In f fs -> ~ In (Z.of_nat idx) f) ->
  nth_error out idx = nth_error pts idx.
Proof.
  intros Hb Hs Hfix; rewrite smooth_flatten, Hb in Hs; simpl in Hs.
  inversion Hs; subst out; clear Hs.
  assert (Hf : is_fixed adj bnd idx = true).
  { unfold is_fixed; apply orb_true_iff.
    destruct Hfix as [Hin | [Hnil | Hno]].
    - left; apply in_set_true; exact Hin.
    - right; rewrite Hnil; reflexivity.
    - right; rewrite (unreferenced_no_neighbour _ _ _ _ _ Hb Hno); reflexivity. }
  apply nth_error_of_nth; [apply relax_length|].
  intros d; apply relax_fixed; exact Hf.
Qed.


(** C7. The smoothed mesh keeps the face array of the original mesh and has
    as many points as it, index for index: its point array is the input
    array after the passes, a pass puts at index [i] the vertex [i] of the
    previous array, kept or moved towards the mean of its own neighbours, and
    a fixed vertex is at its index with its input position.  On a well-formed
    mesh the smoothing does return such a mesh, for every position of the two
    sliders. *)
Theorem smoothed_mesh_shape {T : Type} {ST : Scalar T} :
  (forall (mesh sm : PolyData T) (lambda_slider iter_slider : Z),
      apply_smoothing (Some mesh) lambda_slider iter_slider = Returns (Some sm) ->
      faces sm = faces mesh
      /\ length (points sm) = length (points mesh)
      /\ exists fs adj bnd,
          parse_faces (faces mesh) = Returns fs
          /\ build_connectivity (length (points mesh)) fs = Returns (adj, bnd)
          /\ let lambd := s_div (s_of_Z lambda_slider) (s_of_Z 100) in
             points sm
             = Nat.iter (Z.to_nat iter_slider) (jacobi_pass lambd adj bnd)
                        (points mesh)
             /\ (forall prev i, (i < length prev)%nat ->
                  nth i (jacobi_pass lambd adj bnd prev) p_zero
                  = if is_fixed adj bnd i then nth i prev p_zero
                    else
                      p_add (nth i prev p_zero)
                        (p_scale lambd
                           (p_sub (p_mean (gather prev (nth i adj [])))
                                  (nth i prev p_zero))))
             /\ forall i, is_fixed adj bnd i = true ->
                  nth_error (points sm) i = nth_error (points mesh) i)
  /\ forall (pts : list (point T)) (fs : list (list Z)) (lambda_slider iter_slider : Z),
      in_range (length pts) fs ->
      exists new_pts,
        apply_smoothing (Some (mkPolyData pts (flatten_faces fs)))
                        lambda_slider iter_slider
        = Returns (Some (mkPolyData new_pts (flatten_faces fs)))
        /\ length new_pts = length pts.
Proof.
  split.
  - intros mesh sm ls it; unfold apply_smoothing, _laplacian_smooth.
    destruct (parse_faces (faces mesh)) as [fs| |] eqn:Hparse; simpl;
      try discriminate.
    destruct (build_connectivity (length (points mesh)) fs) as [[adj bnd]| |]
      eqn:Hbuild; simpl; try discriminate.
    intros H; inversion H; subst sm; simpl.
    split; [reflexivity|]; split; [apply relax_length|].
    exists fs, adj, bnd; split; [reflexivity|]; split; [exact Hbuild|].
    split; [apply relax_jacobi|]; split.
    + intros prev i Hi; rewrite jacobi_pass_nth by exact Hi; reflexivity.
    + intros i Hfix; apply nth_error_of_nth; [apply relax_length|].
      intros d; apply relax_fixed; exact Hfix.
  - intros pts fs ls it Hr; unfold apply_smoothing; simpl.
    rewrite smooth_flatten.
    destruct (build_valid (length pts) fs (in_range_edges _ _ Hr)) as [adj ->].
    simpl; eexists; split; [reflexivity | apply relax_length].
Qed.

(** ** Malformed input and parameters *)

(** C9, as the code has it.  On a well-formed flat array the call never
    loops.  It raises [KeyError], with a key outside [range(N)], exactly
    when some edge, that is a pair of different consecutive vertices of a
    face, has an endpoint outside [range(N)]; an index outside the range
    that occurs in self-edges only is ignored. *)
Theorem out_of_range_edge_raises {T : Type} {ST : Scalar T} (pts : list (point T))
  (fs : list (list Z)) (lambd : T) (K : Z) :
  ((exists e, In e (all_edges fs) /\ ~ edge_valid (length pts) e) ->
   exists k, ~ valid_index (length pts) k
             /\ build_connectivity (length pts) fs = Raises (KeyError k)
             /\ _laplacian_smooth pts (flatten_faces fs) lambd K = Raises (KeyError k))
  /\ ((forall e, In e (all_edges fs) -> edge_valid (length pts) e) ->
      exists out, _laplacian_smooth pts (flatten_faces fs) lambd K = Returns out).
Proof.
  split.
  - intros Hbad; destruct (build_invalid _ _ Hbad) as (k & Hk & Hkbad).
    exists k; split; [exact Hkbad|]; split; [exact Hk|].
    rewrite smooth_flatten, Hk; reflexivity.
  - intros Hok; destruct (build_valid _ _ Hok) as [adj Hadj].
    rewrite smooth_flatten, Hadj; simpl; eauto.
Qed.

(** C9 fails as stated: a face list with the index 7 over three vertices
    goes through the connectivity pass without any signal. *)
Lemma out_of_range_index_accepted :
  build_connectivity 3 [[0; 1; 2]; [7; 7; 7]]
  = Returns ([[1; 2]; [0; 2]; [1; 0]], [0; 1; 2])
  /\ ~ (forall (N : nat) (fs : list (list Z)),
          (exists f v, In f fs /\ In v f /\ ~ valid_index N v) ->
          fails (build_connectivity N fs)).
Proof.
  split; [reflexivity|].
  intros H; destruct (H 3%nat [[0; 1; 2]; [7; 7; 7]]) as [e He].
  - exists [7; 7; 7], 7; unfold valid_index; simpl; intuition lia.
  - discriminate He.
Qed.



Lemma build_no_faces (N : nat) : build_connectivity N [] = Returns (repeat [] N, []).
Proof. reflexivity. Qed.

Lemma no_neighbour_fixed (N : nat) (bnd : list Z) (i : nat) :
  is_fixed (repeat [] N) bnd i = true.
Proof.
  unfold is_fixed; rewrite nth_repeat_nil; apply orb_true_r.
Qed.

(** C5, as the code has it.  An empty input is not signalled.  Without
    faces the call returns the points unchanged.  Without points it returns
    the empty array when the faces have no edge, and raises [KeyError] at the
    first edge otherwise. *)
Theorem empty_input_not_signalled {T : Type} {ST : Scalar T} (lambd : T) (K : Z) :
  (forall pts : list (point T), _laplacian_smooth pts [] lambd K = Returns pts)
  /\ forall fs : list (list Z),
      (all_edges fs = [] ->
       _laplacian_smooth [] (flatten_faces fs) lambd K = Returns [])
      /\ (all_edges fs <> [] ->
          exists k, _laplacian_smooth [] (flatten_faces fs) lambd K
                    = Raises (KeyError k)).
Proof.
  split.
  - intros pts; change (@nil Z) with (flatten_faces []).
    rewrite smooth_flatten, build_no_faces; simpl.
    rewrite relax_all_fixed; [reflexivity | apply no_neighbour_fixed].
  - intros fs; split; intros Hedges.
    + rewrite smooth_flatten; unfold build_connectivity.
      rewrite count_edges_all, Hedges; simpl.
      change (boundary_of []) with (@nil Z).
      destruct (relax lambd [] [] K []) as [|p l] eqn:E; [reflexivity|].
      pose proof (relax_length lambd [] [] K []) as Hlen.
      rewrite E in Hlen; discriminate Hlen.
    + destruct (all_edges fs) as [|e es] eqn:E; [contradiction|].
      destruct (build_invalid 0 fs) as (k & Hk & _).
      * exists e; rewrite E; split; [left; reflexivity|].
        unfold edge_valid, valid_index; simpl; lia.
      * exists k; rewrite smooth_flatten; simpl length; rewrite Hk; reflexivity.
Qed.

(** C5 fails as stated: the tetrahedron without faces, and no point at
    all, both give a result. *)
Lemma empty_input_accepted :
  _laplacian_smooth tetra_f64 [] (f64_ratio 1 2) 10 = Returns tetra_f64
  /\ _laplacian_smooth (@nil (point f64)) [] (f64_ratio 1 2) 10 = Returns []
  /\ ~ (forall (pts : list (point f64)) (faces_arr : list Z) (lambd : f64) (K : Z),
          pts = [] \/ faces_arr = [] ->
          fails (_laplacian_smooth pts faces_arr lambd K)).
Proof.
  split; [reflexivity|]; split; [reflexivity|].
  intros H; destruct (H tetra_f64 [] (f64_ratio 1 2) 10) as [e He];
    [right; reflexivity | discriminate He].
Qed.

(** ** Binary64: [lambda = 0] *)

Lemma same_value_refl (x : f64) : same_value x x.
Proof. left; reflexivity. Qed.

Lemma same_value_trans (x y z : f64) :
  same_value x y -> same_value y z -> same_value x z.
Proof.
  unfold same_value; intros [-> | [Hx Hy]] [-> | [Hy' Hz]]; auto.
Qed.

(** [x + 0 * d] is [x] when [d] is finite; the sum of two zeros may change
    the sign of a zero. *)
Lemma f64_add_zero_times (x d : f64) (s : bool) :
  f64_finite d = true ->
  same_value (SFadd 53 1024 x (SFmul 53 1024 (S754_zero s) d)) x.
Proof.
  intros Hd; destruct d as [sd | sd | | sd md ed]; simpl in Hd;
    try discriminate; simpl;
    (destruct x as [sx | sx | | sx mx ex]; simpl;
     [ right; split; [destruct sx, (xorb s sd)|]; reflexivity
     | left; reflexivity
     | left; reflexivity
     | left; reflexivity ]).
Qed.

Lemma coord_moved_f64 (lambd : f64) (adj : adjacency) (prev : list (point f64))
  (i : nat) (a : axis) :
  coord a (moved lambd adj prev i)
  = SFadd 53 1024 (coord a (nth i prev p_zero))
      (SFmul 53 1024 lambd
         (coord a (p_sub (p_mean (gather prev (nth i adj []))) (nth i prev p_zero)))).
Proof. destruct a; reflexivity. Qed.

Lemma p_finite_coord (p : point f64) (a : axis) :
  p_finite p = true -> f64_finite (coord a p) = true.
Proof.
  unfold p_finite; rewrite !andb_true_iff; intros [[Hx Hy] Hz].
  destruct a; assumption.
Qed.

Lemma pass_lambda0 (s : bool) (adj : adjacency) (bnd : list Z)
  (prev : list (point f64)) :
  finite_pass adj bnd prev = true ->
  same_points (relax_pass (S754_zero s) adj bnd prev) prev.
Proof.
  intros Hfin; rewrite relax_pass_jacobi; split; [apply jacobi_pass_length|].
  intros i a; destruct (Nat.lt_ge_cases i (length prev)) as [Hlt | Hge].
  - rewrite jacobi_pass_nth by exact Hlt.
    unfold finite_pass in Hfin; rewrite forallb_forall in Hfin.
    specialize (Hfin i); rewrite in_seq in Hfin.
    destruct (is_fixed adj bnd i); [apply same_value_refl|].
    rewrite coord_moved_f64; apply f64_add_zero_times.
    apply p_finite_coord; apply Hfin; lia.
  - rewrite !nth_overflow by (rewrite ?jacobi_pass_length; exact Hge).
    apply same_value_refl.
Qed.

Lemma same_points_trans (l1 l2 l3 : list (point f64)) :
  same_points l1 l2 -> same_points l2 l3 -> same_points l1 l3.
Proof.
  intros [Hl1 H1] [Hl2 H2]; split; [congruence|].
  intros i a; eapply same_value_trans; eauto.
Qed.

Lemma run_lambda0 (s : bool) (adj : adjacency) (bnd : list Z) (k : nat) :
  forall prev : list (point f64),
    finite_run (S754_zero s) adj bnd k prev = true ->
    same_points (Nat.iter k (relax_pass (S754_zero s) adj bnd) prev) prev.
Proof.
  induction k as [|k IH]; intros prev Hrun.
  - split; [reflexivity | intros; apply same_value_refl].
  - simpl in Hrun; apply andb_true_iff in Hrun as [Hpass Hrun].
    rewrite Nat.iter_succ_r.
    eapply same_points_trans; [apply IH; exact Hrun | apply pass_lambda0; exact Hpass].
Qed.

(** *** Any iteration order *)

Lemma smooth_in_flatten {T : Type} {ST : Scalar T} (order : list Z -> list Z)
  (pts : list (point T)) (fs : list (list Z)) (lambd : T) (iterations : Z) :
  _laplacian_smooth_in order pts (flatten_faces fs) lambd iterations
  = (conn <- build_connectivity (length pts) fs ;;
     Returns (relax lambd (map order (fst conn)) (snd conn) iterations pts)).
Proof. unfold _laplacian_smooth_in; rewrite parse_flatten; reflexivity. Qed.

(** The call for the order of insertion is [_laplacian_smooth]. *)
Lemma smooth_in_insertion_order {T : Type} {ST : Scalar T} (pts : list (point T))
  (faces_arr : list Z) (lambd : T) (iterations : Z) :
  _laplacian_smooth_in (fun s => s) pts faces_arr lambd iterations
  = _laplacian_smooth pts faces_arr lambd iterations.
Proof.
  unfold _laplacian_smooth_in, _laplacian_smooth.
  destruct (parse_faces faces_arr) as [fs| |]; simpl; try reflexivity.
  destruct (build_connectivity (length pts) fs) as [conn| |]; simpl;
    try reflexivity.
  rewrite map_id; reflexivity.
Qed.

Lemma order_nil (order : list Z -> list Z) :
  iteration_order order -> order [] = [].
Proof.
  intros Ho; apply Permutation_nil, Permutation_sym, Ho.
Qed.

Lemma nth_map_order (order : list Z -> list Z) (adj : adjacency) (i : nat) :
  iteration_order order -> nth i (map order adj) [] = order (nth i adj []).
Proof.
  intros Ho; rewrite <- (order_nil order Ho) at 1; apply map_nth.
Qed.

Lemma is_fixed_order (order : list Z -> list Z) (adj : adjacency) (bnd : list Z)
  (i : nat) :
  iteration_order order -> is_fixed (map order adj) bnd i = is_fixed adj bnd i.
Proof.
  intros Ho; unfold is_fixed; rewrite nth_map_order by exact Ho.
  rewrite (Permutation_length (Ho (nth i adj []))); reflexivity.
Qed.

(** The three neighbours of vertex 3 of [tetra_huge], in any order, have a
    sum of x that overflows. *)
Lemma huge_mean (l : list Z) :
  Permutation l [0; 1; 2] ->
  px (p_mean (gather tetra_huge l)) = S754_infinity false.
Proof.
  intros Hp.
  assert (Hin : forall x, In x l -> x = 0 \/ x = 1 \/ x = 2).
  { intros x Hx; apply (Permutation_in _ Hp) in Hx.
    destruct Hx as [<- | [<- | [<- | []]]]; auto. }
  apply Permutation_length in Hp.
  destruct l as [|a [|b [|c [|d l]]]]; try discriminate Hp.
  pose proof (Hin a (or_introl eq_refl)) as Ha.
  pose proof (Hin b (or_intror (or_introl eq_refl))) as Hb.
  pose proof (Hin c (or_intror (or_intror (or_introl eq_refl)))) as Hc.
  destruct Ha as [-> | [-> | ->]], Hb as [-> | [-> | ->]], Hc as [-> | [-> | ->]];
    vm_compute; reflexivity.
Qed.

(** C6 fails as stated: three vertices at x = 1e308 and one at the origin.
    The sum of two neighbours overflows, [0 * inf] is NaN, and every x of
    the output is NaN.  The x of vertex 3 is NaN in whatever order its
    neighbours are read. *)
Lemma lambda_zero_overflow :
  _laplacian_smooth tetra_huge (flatten_faces tetra_faces) (fz 0) 1
  = Returns
      [mkPoint S754_nan (fz 0) (fz 0); mkPoint S754_nan (fz 1) (fz 0);
       mkPoint S754_nan (fz 0) (fz 1); mkPoint S754_nan (fz 0) (fz 0)]
  /\ (forall order : list Z -> list Z,
        iteration_order order ->
        exists out,
          _laplacian_smooth_in order tetra_huge (flatten_faces tetra_faces) (fz 0) 1
          = Returns out
          /\ px (nth 3 out p_zero) = S754_nan)
  /\ ~ (forall (pts : list (point f64)) (fs : list (list Z)) (K : Z)
               (out : list (point f64)),
          _laplacian_smooth pts (flatten_faces fs) (fz 0) K = Returns out ->
          same_points out pts).
Proof.
  split; [vm_compute; reflexivity|]; split.
  - intros order Ho; rewrite smooth_in_flatten.
    change (build_connectivity (length tetra_huge) tetra_faces)
      with (Returns ([[1; 2; 3]; [0; 2; 3]; [1; 0; 3]; [0; 1; 2]], @nil Z)).
    cbn [bind fst snd]; eexists; split; [reflexivity|].
    unfold relax; change (Z.to_nat 1) with 1%nat; cbn [Nat.iter nat_rect].
    rewrite relax_pass_jacobi, jacobi_pass_nth by (simpl; lia).
    rewrite is_fixed_order by exact Ho.
    change (is_fixed [[1; 2; 3]; [0; 2; 3]; [1; 0; 3]; [0; 1; 2]] [] 3) with false.
    cbn iota.
    change (px ?p) with (coord X p); rewrite coord_moved_f64.
    rewrite nth_map_order by exact Ho.
    change (nth 3 [[1; 2; 3]; [0; 2; 3]; [1; 0; 3]; [0; 1; 2]] []) with [0; 1; 2].
    cbn [coord p_sub px]; cbn [s_sub F64].
    rewrite huge_mean by (apply Ho).
    vm_compute; reflexivity.
  - intros H.
    destruct (H tetra_huge tetra_faces 1 _ eq_refl) as [_ Hsame].
    specialize (Hsame 3%nat X); vm_compute in Hsame.
    destruct Hsame as [Heq | [Hz _]]; discriminate.
Qed.

(** ** Exact arithmetic: centroids and the bounding box *)

Open Scope Q_scope.

Lemma coord_p_add (a : axis) (p q : point Q) :
  coord a (p_add p q) = coord a p + coord a q.
Proof. destruct a; reflexivity. Qed.

Lemma coord_moved_Q (lambd : Q) (adj : adjacency) (prev : list (point Q))
  (i : nat) (a : axis) :
  coord a (moved lambd adj prev i)
  = coord a (nth i prev p_zero)
    + lambd * (coord a (p_mean (gather prev (nth i adj [])))
               - coord a (nth i prev p_zero)).
Proof. destruct a; reflexivity. Qed.

Lemma coord_p_mean (a : axis) (rows : list (point Q)) :
  coord a (p_mean rows)
  = coord a (p_sum rows) / inject_Z (Z.of_nat (length rows)).
Proof. destruct a; reflexivity. Qed.

Lemma inject_succ (n : nat) :
  inject_Z (Z.of_nat (S n)) == inject_Z (Z.of_nat n) + 1.
Proof. rewrite Nat2Z.inj_succ; unfold Z.succ; rewrite inject_Z_plus; reflexivity. Qed.

(** The running sum of [k] rows stays between [k * lo] and [k * hi]. *)
Lemma fold_sum_bounds (a : axis) (lo hi : Q) (rest : list (point Q)) :
  forall (acc : point Q) (k : nat),
    inject_Z (Z.of_nat k) * lo <= coord a acc <= inject_Z (Z.of_nat k) * hi ->
    (forall p, In p rest -> lo <= coord a p <= hi) ->
    inject_Z (Z.of_nat (k + length rest)) * lo
    <= coord a (fold_left p_add rest acc)
    <= inject_Z (Z.of_nat (k + length rest)) * hi.
Proof.
  induction rest as [|r rest IH]; intros acc k Hacc Hbox; simpl.
  - rewrite Nat.add_0_r; exact Hacc.
  - replace (k + S (length rest))%nat with (S k + length rest)%nat by lia.
    apply IH; [|intros p Hp; apply Hbox; right; exact Hp].
    rewrite coord_p_add, inject_succ.
    destruct (Hbox r (or_introl eq_refl)) as [Hlo Hhi]; lra.
Qed.

Lemma mean_bounds (a : axis) (lo hi : Q) (rows : list (point Q)) :
  rows <> [] ->
  (forall p, In p rows -> lo <= coord a p <= hi) ->
  lo <= coord a (p_mean rows) <= hi.
Proof.
  intros Hne Hbox; destruct rows as [|r rest]; [contradiction|].
  rewrite coord_p_mean.
  assert (Hsum : inject_Z (Z.of_nat (length (r :: rest))) * lo
                 <= coord a (p_sum (r :: rest))
                 <= inject_Z (Z.of_nat (length (r :: rest))) * hi).
  { apply (fold_sum_bounds a lo hi rest r 1).
    - destruct (Hbox r (or_introl eq_refl)); change (inject_Z (Z.of_nat 1)) with 1; lra.
    - intros p Hp; apply Hbox; right; exact Hp. }
  assert (Hpos : 0 < inject_Z (Z.of_nat (length (r :: rest)))).
  { change 0 with (inject_Z 0); rewrite <- Zlt_Qlt; simpl length; lia. }
  destruct Hsum as [Hlo Hhi]; split.
  - apply Qle_shift_div_l; [exact Hpos | rewrite Qmult_comm; exact Hlo].
  - apply Qle_shift_div_r; [exact Hpos | rewrite Qmult_comm; exact Hhi].
Qed.

(** A convex combination of two values of an interval stays in it. *)
Lemma convex_bounds (lo hi old m lambd : Q) :
  0 <= lambd <= 1 -> lo <= old <= hi -> lo <= m <= hi ->
  lo <= old + lambd * (m - old) <= hi.
Proof.
  intros [Hl0 Hl1] [Ho0 Ho1] [Hm0 Hm1]; split.
  - assert (H1 : 0 <= (1 - lambd) * (old - lo)) by (apply Qmult_le_0_compat; lra).
    assert (H2 : 0 <= lambd * (m - lo)) by (apply Qmult_le_0_compat; lra).
    lra.
  - assert (H1 : 0 <= (1 - lambd) * (hi - old)) by (apply Qmult_le_0_compat; lra).
    assert (H2 : 0 <= lambd * (hi - m)) by (apply Qmult_le_0_compat; lra).
    lra.
Qed.

Lemma gather_in (pts : list (point Q)) (nbrs : list Z) (p : point Q) :
  (forall b, In b nbrs -> valid_index (length pts) b) ->
  In p (gather pts nbrs) -> In p pts.
Proof.
  intros Hvalid Hin; unfold gather in Hin; apply in_map_iff in Hin as (b & <- & Hb).
  apply nth_In; destruct (Hvalid b Hb); lia.
Qed.

Lemma jacobi_pass_box (lambd : Q) (adj : adjacency) (bnd : list Z)
  (prev : list (point Q)) (a : axis) (lo hi : Q) :
  0 <= lambd <= 1 ->
  (forall i b, In b (nth i adj []) -> valid_index (length prev) b) ->
  (forall p, In p prev -> lo <= coord a p <= hi) ->
  forall q, In q (jacobi_pass lambd adj bnd prev) -> lo <= coord a q <= hi.
Proof.
  intros Hl Hvalid Hbox q Hq; unfold jacobi_pass in Hq.
  apply in_map_iff in Hq as (i & <- & Hi); apply in_seq in Hi.
  assert (Hold : lo <= coord a (nth i prev p_zero) <= hi)
    by (apply Hbox, nth_In; lia).
  destruct (is_fixed adj bnd i) eqn:Hfix; [exact Hold|].
  fold (moved lambd adj prev i); rewrite coord_moved_Q.
  apply convex_bounds; [exact Hl | exact Hold|].
  apply mean_bounds.
  - unfold is_fixed in Hfix; apply orb_false_iff in Hfix as [_ Hlen].
    apply Nat.eqb_neq in Hlen; unfold gather.
    destruct (nth i adj []); [contradiction | discriminate].
  - intros p Hp; apply Hbox; eapply gather_in; [|exact Hp].
    intros b Hb; eapply Hvalid; exact Hb.
Qed.

Lemma relax_box (lambd : Q) (adj : adjacency) (bnd : list Z) (K : Z)
  (pts : list (point Q)) (a : axis) (lo hi : Q) :
  0 <= lambd <= 1 ->
  (forall i b, In b (nth i adj []) -> valid_index (length pts) b) ->
  (forall p, In p pts -> lo <= coord a p <= hi) ->
  forall q, In q (relax lambd adj bnd K pts) -> lo <= coord a q <= hi.
Proof.
  intros Hl Hvalid Hbox; rewrite relax_jacobi.
  induction (Z.to_nat K) as [|k IH]; simpl; [exact Hbox|].
  apply jacobi_pass_box; [exact Hl | | exact IH].
  assert (Hlen : length (Nat.iter k (jacobi_pass lambd adj bnd) pts) = length pts).
  { clear IH; induction k as [|k IHk]; simpl; [reflexivity|].
    rewrite jacobi_pass_length; exact IHk. }
  rewrite Hlen; exact Hvalid.
Qed.

(** C10, in exact arithmetic.  On a mesh whose face indices are all in
    range, with [0 <= lambda <= 1] and any iteration count, the call returns
    and, on every axis, every interval that holds the input coordinates
    holds the output coordinates: the bounding box does not grow. *)
Theorem bounding_box_exact (pts : list (point Q)) (fs : list (list Z))
  (lambd : Q) (K : Z) (a : axis) (lo hi : Q) :
  in_range (length pts) fs ->
  0 <= lambd <= 1 ->
  (forall p, In p pts -> lo <= coord a p <= hi) ->
  exists out,
    _laplacian_smooth pts (flatten_faces fs) lambd K = Returns out
    /\ forall q, In q out -> lo <= coord a q <= hi.
Proof.
  intros Hr Hl Hbox.
  destruct (build_valid _ _ (in_range_edges _ _ Hr)) as [adj Hadj].
  rewrite smooth_flatten, Hadj; simpl; eexists; split; [reflexivity|].
  apply build_returns in Hadj as (_ & _ & _ & Hvalid).
  apply relax_box; assumption.
Qed.

Lemma tetra_connectivity :
  build_connectivity 4 tetra_faces
  = Returns ([[1; 2; 3]; [0; 2; 3]; [1; 0; 3]; [0; 1; 2]]%Z, []).
Proof. reflexivity. Qed.

Lemma pass_lambda1_exact (adj : adjacency) (bnd : list Z) (pts : list (point Q))
  (i : nat) (a : axis) :
  is_fixed adj bnd i = false -> (i < length pts)%nat ->
  coord a (nth i (relax 1 adj bnd 1 pts) p_zero)
  == coord a (p_mean (gather pts (nth i adj []))).
Proof.
  intros Hfix Hlt; unfold relax; change (Z.to_nat 1) with 1%nat; simpl Nat.iter.
  rewrite relax_pass_jacobi, jacobi_pass_nth, Hfix, coord_moved_Q by exact Hlt.
  ring.
Qed.

(** C8, as the code has it.  With [lambda = 1] and one iteration a vertex
    outside the boundary set and with a neighbour is set to
    [old + 1 * (centroid - old)], the centroid being the mean of the original
    positions of its neighbours, in whatever arithmetic the array has.  In
    exact arithmetic this is the centroid itself, and every vertex of the
    tetrahedron ends at the mean of the other three. *)
Theorem centroid_exact :
  (forall (T : Type) (ST : Scalar T) (one : T) (pts : list (point T))
          (fs : list (list Z)) (adj : adjacency) (bnd : list Z)
          (out : list (point T)) (i : nat),
      build_connectivity (length pts) fs = Returns (adj, bnd) ->
      _laplacian_smooth pts (flatten_faces fs) one 1 = Returns out ->
      is_fixed adj bnd i = false -> (i < length pts)%nat ->
      let old := nth i pts p_zero in
      let centroid := p_mean (gather pts (nth i adj [])) in
      nth i out p_zero = p_add old (p_scale one (p_sub centroid old)))
  /\ (forall (pts : list (point Q)) (fs : list (list Z)) (adj : adjacency)
             (bnd : list Z) (out : list (point Q)) (i : nat) (a : axis),
        build_connectivity (length pts) fs = Returns (adj, bnd) ->
        _laplacian_smooth pts (flatten_faces fs) 1 1 = Returns out ->
        is_fixed adj bnd i = false -> (i < length pts)%nat ->
        coord a (nth i out p_zero)
        == coord a (p_mean (gather pts (nth i adj []))))
  /\ forall p0 p1 p2 p3 : point Q,
      exists q0 q1 q2 q3,
        _laplacian_smooth [p0; p1; p2; p3] (flatten_faces tetra_faces) 1 1
        = Returns [q0; q1; q2; q3]
        /\ forall a : axis,
            coord a q0 == (coord a p1 + coord a p2 + coord a p3) / 3
            /\ coord a q1 == (coord a p0 + coord a p2 + coord a p3) / 3
            /\ coord a q2 == (coord a p1 + coord a p0 + coord a p3) / 3
            /\ coord a q3 == (coord a p0 + coord a p1 + coord a p2) / 3.
Proof.
  split; [|split].
  - intros T ST one pts fs adj bnd out i Hb Hs Hfix Hlt.
    rewrite smooth_flatten, Hb in Hs; simpl in Hs; inversion Hs; subst out.
    unfold relax; change (Z.to_nat 1) with 1%nat; simpl Nat.iter.
    rewrite relax_pass_jacobi, jacobi_pass_nth, Hfix by exact Hlt; reflexivity.
  - intros pts fs adj bnd out i a Hb Hs Hfix Hlt.
    rewrite smooth_flatten, Hb in Hs; simpl in Hs; inversion Hs; subst out.
    apply pass_lambda1_exact; assumption.
  - intros p0 p1 p2 p3.
    set (pts := [p0; p1; p2; p3]).
    set (adj := [[1; 2; 3]; [0; 2; 3]; [1; 0; 3]; [0; 1; 2]]%Z).
    exists (nth 0 (relax 1 adj [] 1 pts) p_zero), (nth 1 (relax 1 adj [] 1 pts) p_zero),
           (nth 2 (relax 1 adj [] 1 pts) p_zero), (nth 3 (relax 1 adj [] 1 pts) p_zero).
    split.
    + rewrite smooth_flatten; change (length pts) with 4%nat.
      rewrite tetra_connectivity; reflexivity.
    + intros a.
      rewrite !(pass_lambda1_exact adj [] pts _ a) by (try reflexivity; simpl; lia).
      rewrite !coord_p_mean; unfold p_sum; simpl gather; cbn iota; simpl fold_left.
      rewrite !coord_p_add; simpl length.
      change (inject_Z (Z.of_nat 3)) with 3.
      repeat split; reflexivity.
Qed.

Close Scope Q_scope.

(** ** Binary64: rounding *)

(** C8 fails as stated in binary64.  Vertex 0 of [tetra_far] is at
    x = 1e16 and its three neighbours at x = 1: the centroid has x = 1, but
    [1 - 1e16] rounds to [-1e16] and the vertex ends at x = 0. *)
Lemma centroid_cancellation :
  px (p_mean (gather tetra_far [1; 2; 3])) = fz 1
  /\ SFsub 53 1024 (fz 1) (fz (10 ^ 16)) = f64_of_Z (- 10 ^ 16)
  /\ (exists out,
        _laplacian_smooth tetra_far (flatten_faces tetra_faces) (fz 1) 1 = Returns out
        /\ px (nth 0 out p_zero) = fz 0)
  /\ ~ (forall (pts : list (point f64)) (fs : list (list Z)) (adj : adjacency)
               (bnd : list Z) (out : list (point f64)) (i : nat) (a : axis),
          build_connectivity (length pts) fs = Returns (adj, bnd) ->
          _laplacian_smooth pts (flatten_faces fs) (fz 1) 1 = Returns out ->
          is_fixed adj bnd i = false -> (i < length pts)%nat ->
          same_value (coord a (nth i out p_zero))
                     (coord a (p_mean (gather pts (nth i adj []))))).
Proof.
  split; [vm_compute; reflexivity|]; split; [vm_compute; reflexivity|]; split.
  - eexists; split; [vm_compute; reflexivity | reflexivity].
  - intros H.
    pose proof (H tetra_far tetra_faces _ _ _ 0%nat X tetra_connectivity eq_refl
                  eq_refl ltac:(simpl; lia)) as Hsame.
    vm_compute in Hsame; destruct Hsame as [Heq | [_ Hz]]; discriminate.
Qed.

(** C10 fails as stated in binary64.  All four vertices of [tetra_tenth]
    have x = 0.1; [(0.1 + 0.1 + 0.1) / 3] rounds to the next float above 0.1,
    and with [lambda = 1] every x of the output is above every x of the
    input. *)
Lemma bounding_box_rounding :
  map px tetra_tenth
  = [f64_ratio 1 10; f64_ratio 1 10; f64_ratio 1 10; f64_ratio 1 10]
  /\ f64_ratio 1 10 = S754_finite false 7205759403792794 (-56)
  /\ (exists out,
        _laplacian_smooth tetra_tenth (flatten_faces tetra_faces) (fz 1) 1 = Returns out
        /\ map px out
           = [S754_finite false 7205759403792795 (-56);
              S754_finite false 7205759403792795 (-56);
              S754_finite false 7205759403792795 (-56);
              S754_finite false 7205759403792795 (-56)])
  /\ ~ (forall (pts : list (point f64)) (fs : list (list Z)) (lambd : f64) (K : Z)
               (a : axis) (lo hi : f64) (out : list (point f64)),
          in_range (length pts) fs ->
          f64_leb (fz 0) lambd = true -> f64_leb lambd (fz 1) = true -> 0 <= K ->
          (forall p, In p pts ->
                     f64_leb lo (coord a p) = true /\ f64_leb (coord a p) hi = true) ->
          _laplacian_smooth pts (flatten_faces fs) lambd K = Returns out ->
          forall q, In q out ->
                    f64_leb lo (coord a q) = true /\ f64_leb (coord a q) hi = true).
Proof.
  split; [reflexivity|]; split; [vm_compute; reflexivity|]; split.
  - eexists; split; [vm_compute; reflexivity | reflexivity].
  - intros H.
    assert (Hr : in_range (length tetra_tenth) tetra_faces).
    { unfold in_range, tetra_faces, valid_index; simpl.
      repeat (constructor; try lia). }
    assert (Hbox : forall p, In p tetra_tenth ->
               f64_leb (f64_ratio 1 10) (coord X p) = true
               /\ f64_leb (coord X p) (f64_ratio 1 10) = true).
    { intros p [<- | [<- | [<- | [<- | []]]]]; split; vm_compute; reflexivity. }
    destruct (H tetra_tenth tetra_faces (fz 1) 1 X (f64_ratio 1 10) (f64_ratio 1 10)
                _ Hr eq_refl eq_refl ltac:(lia) Hbox eq_refl
                (nth 0 (relax (fz 1) [[1; 2; 3]; [0; 2; 3]; [1; 0; 3]; [0; 1; 2]] []
                          1 tetra_tenth) p_zero))
      as [_ Hhi].
    + left; reflexivity.
    + vm_compute in Hhi; discriminate Hhi.
Qed.

(** ** The theorems on the example meshes *)

(** The flat quad of the specification: all four vertices are on the
    boundary and none moves in ten passes with [lambda = 0.5]. *)
Example quad_all_boundary :
  _laplacian_smooth quad_f64 (flatten_faces quad_faces) (f64_ratio 1 2) 10
  = Returns quad_f64.
Proof. vm_compute; reflexivity. Qed.

Ltac in_range_tac :=
  unfold in_range, valid_index; repeat constructor; simpl; lia.


Lemma fixed_vertices_unchanged_on_fan :
  exists out,
    _laplacian_smooth fan_f64 (flatten_faces fan_faces) (f64_ratio 1 2) 10 = Returns out
    /\ nth_error out 1 = nth_error fan_f64 1
    /\ nth_error out 5 = nth_error fan_f64 5.
Proof.
  eexists; split; [vm_compute; reflexivity|]; split.
  - eapply (fixed_vertices_unchanged fan_f64 fan_faces (f64_ratio 1 2) 10 _ _ _ 1%nat).
    + vm_compute; reflexivity.
    + vm_compute; reflexivity.
    + left; simpl; tauto.
  - eapply (fixed_vertices_unchanged fan_f64 fan_faces (f64_ratio 1 2) 10 _ _ _ 5%nat).
    + vm_compute; reflexivity.
    + vm_compute; reflexivity.
    + right; right; intros f Hf; simpl in Hf.
      destruct Hf as [<- | [<- | [<- | [<- | []]]]]; simpl; lia.
Defined.



Lemma empty_input_not_signalled_on_examples :
  _laplacian_smooth (@nil (point f64)) (flatten_faces [[0; 0; 0]]) (f64_ratio 1 2) 10
  = Returns []
  /\ exists k,
      _laplacian_smooth (@nil (point f64)) (flatten_faces tetra_faces) (f64_ratio 1 2) 10
      = Raises (KeyError k).
Proof.
  split.
  - apply (proj1 (proj2 (empty_input_not_signalled (f64_ratio 1 2) 10) [[0; 0; 0]])).
    reflexivity.
  - apply (proj2 (proj2 (empty_input_not_signalled (f64_ratio 1 2) 10) tetra_faces)).
    intros H; vm_compute in H; discriminate H.
Defined.

Lemma smoothed_mesh_shape_on_tetra :
  (exists new_pts,
     apply_smoothing (Some (mkPolyData tetra_f64 (flatten_faces tetra_faces))) 50 10
     = Returns (Some (mkPolyData new_pts (flatten_faces tetra_faces)))
     /\ length new_pts = length tetra_f64)
  /\ exists sm,
      apply_smoothing (Some (mkPolyData fan_f64 (flatten_faces fan_faces))) 50 10
      = Returns (Some sm)
      /\ faces sm = flatten_faces fan_faces
      /\ length (points sm) = length fan_f64
      /\ nth_error (points sm) 1 = nth_error fan_f64 1.
Proof.
  split.
  - apply (proj2 smoothed_mesh_shape tetra_f64 tetra_faces 50 10); in_range_tac.
  - eexists; split; [vm_compute; reflexivity|].
    destruct (proj1 smoothed_mesh_shape
                (mkPolyData fan_f64 (flatten_faces fan_faces)) _ 50 10
                ltac:(vm_compute; reflexivity))
      as (Hfaces & Hlen & fs & adj & bnd & Hparse & Hbuild & _ & _ & Hfixed).
    split; [exact Hfaces|]; split; [exact Hlen|].
    apply Hfixed.
    cbn [points faces length] in Hparse, Hbuild.
    rewrite parse_flatten in Hparse; inversion Hparse; subst fs.
    vm_compute in Hbuild; inversion Hbuild; subst adj bnd; reflexivity.
Defined.

Lemma out_of_range_edge_raises_on_triangle :
  exists k,
    ~ valid_index (length tri_f64) k
    /\ build_connectivity (length tri_f64) [[0; 1; 7]] = Raises (KeyError k)
    /\ _laplacian_smooth tri_f64 (flatten_faces [[0; 1; 7]]) (f64_ratio 1 2) 10
       = Raises (KeyError k).
Proof.
  apply (proj1 (out_of_range_edge_raises tri_f64 [[0; 1; 7]] (f64_ratio 1 2) 10)).
  exists (1, 7); split.
  - vm_compute; right; left; reflexivity.
  - unfold edge_valid, valid_index; simpl; lia.
Defined.

Lemma centroid_exact_on_tetra :
  exists out,
    _laplacian_smooth tetra_Q (flatten_faces tetra_faces) 1%Q 1 = Returns out
    /\ (coord X (nth 0 out p_zero)
        == coord X (p_mean (gather tetra_Q [1; 2; 3]%Z)))%Q.
Proof.
  eexists; split; [vm_compute; reflexivity|].
  apply (proj1 (proj2 centroid_exact) tetra_Q tetra_faces
           [[1; 2; 3]; [0; 2; 3]; [1; 0; 3]; [0; 1; 2]] [] _ 0%nat X).
  - reflexivity.
  - vm_compute; reflexivity.
  - reflexivity.
  - simpl; lia.
Defined.

Lemma bounding_box_exact_on_tetra :
  exists out,
    _laplacian_smooth tetra_Q (flatten_faces tetra_faces) (1 # 2)%Q 3 = Returns out
    /\ forall q, In q out -> (0 <= coord X q <= 1)%Q.
Proof.
  apply (bounding_box_exact tetra_Q tetra_faces (1 # 2)%Q 3 X 0%Q 1%Q).
  - in_range_tac.
  - split; unfold Qle; simpl; lia.
  - intros p [<- | [<- | [<- | [<- | []]]]]; split; unfold Qle; simpl; lia.
Defined.

(** * More of the code *)

(** ** The face parser on arbitrary arrays *)

Lemma py_index_inside (arr : list Z) (i : Z) :
  0 <= i < Z.of_nat (length arr) ->
  py_index arr i = Returns (nth (Z.to_nat i) arr 0).
Proof.
  intros [H0 H1]; unfold py_index.
  destruct (Z.leb_spec 0 i); [|lia].
  destruct (Z.ltb_spec i (Z.of_nat (length arr))); [|lia].
  reflexivity.
Qed.

Lemma in_firstn {A : Type} (n : nat) (l : list A) (x : A) :
  In x (firstn n l) -> In x l.
Proof.
  intros Hin; rewrite <- (firstn_skipn n l); apply in_or_app; left; exact Hin.
Qed.

Lemma in_skipn {A : Type} (n : nat) (l : list A) (x : A) :
  In x (skipn n l) -> In x l.
Proof.
  intros Hin; rewrite <- (firstn_skipn n l); apply in_or_app; right; exact Hin.
Qed.

Lemma py_slice_incl (arr : list Z) (a b : Z) : incl (py_slice arr a b) arr.
Proof.
  intros x Hin; unfold py_slice in Hin.
  apply in_firstn in Hin; apply in_skipn in Hin; exact Hin.
Qed.

Lemma parse_loop_nonneg (arr : list Z) :
  Forall (fun x => 0 <= x) arr ->
  forall (fuel : nat) (i : Z) (acc : list (list Z)),
    0 <= i -> (Z.to_nat (Z.of_nat (length arr) - i) <= fuel)%nat ->
    exists fs,
      parse_loop fuel arr i acc = Returns (acc ++ fs)
      /\ Forall (fun f => incl f arr) fs
      /\ (length fs <= Z.to_nat (Z.of_nat (length arr) - i))%nat.
Proof.
  intros Hpos; induction fuel as [|fuel IH]; intros i acc Hi Hfuel.
  - exists []; simpl.
    destruct (Z.leb_spec (Z.of_nat (length arr)) i); [|lia].
    rewrite app_nil_r; repeat split; [constructor | simpl; lia].
  - cbn [parse_loop].
    destruct (Z.leb_spec (Z.of_nat (length arr)) i) as [Hend | Hin].
    + exists []; rewrite app_nil_r; repeat split; [constructor | simpl; lia].
    + rewrite py_index_inside by lia; cbn [bind].
      assert (Hn : 0 <= nth (Z.to_nat i) arr 0).
      { rewrite Forall_forall in Hpos; apply Hpos, nth_In; lia. }
      destruct (IH (i + (1 + nth (Z.to_nat i) arr 0))
                   (acc ++ [py_slice arr (i + 1) (i + 1 + nth (Z.to_nat i) arr 0)]))
        as (fs & Hrun & Hincl & Hlen); [lia | lia |].
      exists (py_slice arr (i + 1) (i + 1 + nth (Z.to_nat i) arr 0) :: fs).
      rewrite Hrun, <- app_assoc; split; [reflexivity|]; split.
      * constructor; [apply py_slice_incl | exact Hincl].
      * simpl; lia.
Qed.

(** X1. An array whose entries are not negative, and small enough for
    [i + 1 + n] to stay within the integers of the array (below [2^31] with
    the length added), is always parsed: the loop ends after at most one turn
    per entry, and every face it returns is made of entries of the array. *)
Theorem parse_nonnegative_returns (arr : list Z) :
  Forall (fun x => 0 <= x /\ x + Z.of_nat (length arr) < 2 ^ 31) arr ->
  exists fs,
    parse_faces arr = Returns fs
    /\ (length fs <= length arr)%nat
    /\ Forall (fun f => incl f arr) fs.
Proof.
  intros Hbounded; unfold parse_faces.
  assert (Hpos : Forall (fun x => 0 <= x) arr)
    by (eapply Forall_impl; [|exact Hbounded]; intros x [H0 _]; exact H0).
  destruct (parse_loop_nonneg arr Hpos (2 * length arr + 1) 0 [])
    as (fs & Hrun & Hincl & Hlen); [lia | lia |].
  exists fs; split; [exact Hrun|]; split; [lia | exact Hincl].
Qed.

(** X2. A size entry of -1 stops the loop index: from such a position the
    loop never ends, whatever the number of turns. *)
Theorem parse_minus_one_loops (arr : list Z) (i : Z) :
  0 <= i < Z.of_nat (length arr) ->
  nth (Z.to_nat i) arr 0 = -1 ->
  forall (fuel : nat) (acc : list (list Z)),
    parse_loop fuel arr i acc = OutOfFuel.
Proof.
  intros Hi Hn; induction fuel as [|fuel IH]; intros acc; cbn [parse_loop];
    (destruct (Z.leb_spec (Z.of_nat (length arr)) i); [lia|]).
  - reflexivity.
  - rewrite py_index_inside, Hn by lia; cbn [bind].
    replace (i + (1 + -1)) with i by lia; apply IH.
Qed.

(** X3. A first entry far below zero sends the index before the start of
    the array, and reading there raises [IndexError]. *)
Theorem parse_negative_size_raises (n : Z) (rest : list Z) :
  n + 1 < - Z.of_nat (length (n :: rest)) ->
  parse_faces (n :: rest) = Raises IndexError.
Proof.
  intros Hn; unfold parse_faces.
  replace (2 * length (n :: rest) + 1)%nat
    with (S (S (2 * length rest + 1))) by (simpl; lia).
  cbn [parse_loop].
  destruct (Z.leb_spec (Z.of_nat (length (n :: rest))) 0) as [H | _];
    [simpl in H; lia|].
  rewrite (py_index_inside (n :: rest) 0) by (simpl; lia); cbn [bind].
  change (nth (Z.to_nat 0) (n :: rest) 0) with n.
  destruct (Z.leb_spec (Z.of_nat (length (n :: rest))) (0 + (1 + n))) as [H | _];
    [lia|].
  unfold py_index.
  destruct (Z.leb_spec 0 (0 + (1 + n))); [lia|].
  destruct (Z.leb_spec (- Z.of_nat (length (n :: rest))) (0 + (1 + n))); [lia|].
  reflexivity.
Qed.

Lemma parse_loop_prefix (fs : list (list Z)) :
  forall (fuel : nat) (pre tail : list Z) (acc : list (list Z)),
    parse_loop (length fs + fuel) (pre ++ flatten_faces fs ++ tail)
               (Z.of_nat (length pre)) acc
    = parse_loop fuel (pre ++ flatten_faces fs ++ tail)
                 (Z.of_nat (length (pre ++ flatten_faces fs))) (acc ++ fs).
Proof.
  induction fs as [|f fs IH]; intros fuel pre tail acc.
  - simpl; rewrite !app_nil_r; reflexivity.
  - cbn [flatten_faces flat_map]; fold (flatten_faces fs).
    set (n := Z.of_nat (length f)).
    change (((n :: f) ++ flatten_faces fs) ++ tail)
      with (n :: ((f ++ flatten_faces fs) ++ tail)).
    cbn [length Nat.add parse_loop].
    destruct (Z.leb_spec
                (Z.of_nat (length (pre ++ n :: (f ++ flatten_faces fs) ++ tail)))
                (Z.of_nat (length pre))) as [Hle|_].
    { rewrite length_app in Hle; simpl in Hle; lia. }
    rewrite py_index_at; cbn [bind].
    assert (Harr : pre ++ n :: (f ++ flatten_faces fs) ++ tail
                   = (pre ++ [n]) ++ f ++ (flatten_faces fs ++ tail))
      by (rewrite <- !app_assoc; reflexivity).
    rewrite Harr.
    replace (Z.of_nat (length pre) + 1)
      with (Z.of_nat (length (pre ++ [n])))
      by (rewrite length_app; cbn [length]; lia).
    subst n; rewrite py_slice_at.
    replace (Z.of_nat (length pre) + (1 + Z.of_nat (length f)))
      with (Z.of_nat (length ((pre ++ [Z.of_nat (length f)]) ++ f)))
      by (rewrite !length_app; cbn [length]; lia).
    rewrite (app_assoc (pre ++ [Z.of_nat (length f)]) f), IH.
    rewrite <- !app_assoc; reflexivity.
Qed.

Lemma py_slice_to_end (pre vs : list Z) (b : Z) :
  Z.of_nat (length (pre ++ vs)) <= b ->
  py_slice (pre ++ vs) (Z.of_nat (length pre)) b = vs.
Proof.
  intros Hb; unfold py_slice; rewrite length_app in *.
  destruct (Z.ltb_spec (Z.of_nat (length pre)) 0); [lia|].
  destruct (Z.ltb_spec b 0); [lia|].
  rewrite (Z.min_l (Z.of_nat (length pre))), (Z.min_r b) by lia.
  rewrite Nat2Z.id, skipn_app, skipn_all, Nat.sub_diag; simpl.
  apply firstn_all2; lia.
Qed.

(** X4. A last face cut off by the end of the array raises nothing: the
    face is read with the vertices that are there.  The size entry is small
    enough for [i + 1 + n] to stay within the integers of the array. *)
Theorem parse_truncated_face (fs : list (list Z)) (n : Z) (vs : list Z) :
  Z.of_nat (length vs) < n ->
  n + Z.of_nat (length (flatten_faces fs ++ n :: vs)) < 2 ^ 31 ->
  parse_faces (flatten_faces fs ++ n :: vs) = Returns (fs ++ [vs]).
Proof.
  intros Hn _; unfold parse_faces.
  assert (Hlen : (length fs <= length (flatten_faces fs))%nat).
  { clear; induction fs as [|f fs IH]; simpl; [lia|]. rewrite length_app; lia. }
  replace (2 * length (flatten_faces fs ++ n :: vs) + 1)%nat
    with (length fs
          + S (2 * length (flatten_faces fs ++ n :: vs) - length fs))%nat
    by (rewrite length_app; simpl; lia).
  rewrite (parse_loop_prefix fs _ [] (n :: vs) []); simpl app.
  set (rest := (2 * length (flatten_faces fs ++ n :: vs) - length fs)%nat).
  cbn [parse_loop].
  destruct (Z.leb_spec (Z.of_nat (length (flatten_faces fs ++ n :: vs)))
                       (Z.of_nat (length (flatten_faces fs)))) as [H | _].
  { rewrite length_app in H; simpl in H; lia. }
  rewrite py_index_at; cbn [bind].
  replace (flatten_faces fs ++ n :: vs) with ((flatten_faces fs ++ [n]) ++ vs)
    by (rewrite <- app_assoc; reflexivity).
  replace (Z.of_nat (length (flatten_faces fs)) + 1)
    with (Z.of_nat (length (flatten_faces fs ++ [n])))
    by (rewrite length_app; cbn [length]; lia).
  rewrite py_slice_to_end by (rewrite !length_app in *; cbn [length]; lia).
  destruct rest; cbn [parse_loop];
    (destruct (Z.leb_spec (Z.of_nat (length ((flatten_faces fs ++ [n]) ++ vs)))
                          (Z.of_nat (length (flatten_faces fs)) + (1 + n))) as [_ | H];
     [reflexivity | rewrite !length_app in H; cbn [length] in H; lia]).
Qed.

(** X5. The flat array of a face list is read back as that face list, so
    no two face lists have the same flat array. *)
Theorem flat_array_round_trip (fs : list (list Z)) :
  parse_faces (flatten_faces fs) = Returns fs
  /\ forall fs', flatten_faces fs = flatten_faces fs' -> fs = fs'.
Proof.
  split; [apply parse_flatten|].
  intros fs' Heq.
  assert (H : Returns fs = Returns fs').
  { rewrite <- (parse_flatten fs), Heq; apply parse_flatten. }
  inversion H; reflexivity.
Qed.

(** ** Invariants of the connectivity *)

Lemma sorted_pair_lt (v1 v2 : Z) :
  v1 <> v2 -> fst (sorted_pair v1 v2) < snd (sorted_pair v1 v2).
Proof.
  intros Hne; unfold sorted_pair; destruct (Z.leb_spec v1 v2); simpl; lia.
Qed.

Lemma all_edges_sorted (fs : list (list Z)) (u v : Z) :
  In (u, v) (all_edges fs) -> u < v.
Proof.
  unfold all_edges; rewrite in_flat_map; intros (f & _ & Hin).
  apply face_edges_in in Hin as (j & _ & Hne & Heq).
  apply sorted_pair_lt in Hne; rewrite <- Heq in Hne; exact Hne.
Qed.

Lemma dict_set_total (d : edge_dict) (e : edge) (c : nat) :
  (list_sum (map snd (dict_set d e c)) + dict_get d e 0
   = list_sum (map snd d) + c)%nat.
Proof.
  induction d as [|[k c0] rest IH]; simpl; [lia|].
  destruct (edge_eqb k e); simpl; lia.
Qed.

Lemma fold_bump_total (es : list edge) (d : edge_dict) :
  list_sum (map snd (fold_left bump es d))
  = (list_sum (map snd d) + length es)%nat.
Proof.
  revert d; induction es as [|e es IH]; intros d; simpl; [lia|].
  rewrite IH; unfold bump.
  pose proof (dict_set_total d e (dict_get d e 0 + 1)); lia.
Qed.

(** X6. [edge_count] after the first loop: every key is a sorted pair of
    two different vertices and is stored once, its count is the number of
    times the faces have that edge, every edge of the faces is a key, and
    the counts add up to the number of consecutive pairs that are not
    self-edges. *)
Theorem edge_count_invariants (fs : list (list Z)) :
  NoDup (map fst (count_edges fs))
  /\ (forall u v c, In ((u, v), c) (count_edges fs) ->
        u < v /\ c = multiplicity fs (u, v) /\ (1 <= c)%nat)
  /\ (forall e, In e (all_edges fs) -> In (e, multiplicity fs e) (count_edges fs))
  /\ list_sum (map snd (count_edges fs)) = length (all_edges fs).
Proof.
  split; [apply count_edges_ok|]; split; [|split].
  - intros u v c Hin.
    pose proof (count_edges_keys _ _ _ Hin) as Hkey.
    apply count_edges_items in Hin as [Hm Hpos].
    split; [eapply all_edges_sorted; exact Hkey|]; split; [congruence | lia].
  - intros e Hin; apply count_edges_items; split; [reflexivity|].
    apply multiplicity_pos; exact Hin.
  - rewrite count_edges_all, fold_bump_total; reflexivity.
Qed.

Lemma set_add_nodup (v : Z) (s : list Z) : NoDup s -> NoDup (set_add v s).
Proof.
  intros Hnd; unfold set_add; destruct (in_set v s) eqn:E; [exact Hnd|].
  apply NoDup_app; [exact Hnd | constructor; [intros [] | constructor]|].
  intros a Ha [<- | []].
  apply in_set_true in Ha; congruence.
Qed.

Lemma adj_add_nodup (adj adj' : adjacency) (u v : Z) :
  (forall a, NoDup (nth a adj [])) ->
  adj_add adj u v = Returns adj' ->
  forall a, NoDup (nth a adj' []).
Proof.
  intros Hnd; unfold adj_add.
  destruct ((0 <=? u) && (u <? Z.of_nat (length adj))) eqn:E; [|discriminate].
  apply andb_true_iff in E as [H0 H1]; apply Z.leb_le in H0; apply Z.ltb_lt in H1.
  intros H; inversion H; subst adj'; intros a.
  destruct (Nat.eq_dec (Z.to_nat u) a) as [<- | Hne].
  - rewrite nth_update_same by lia; apply set_add_nodup, Hnd.
  - rewrite nth_update_other by exact Hne; apply Hnd.
Qed.

Lemma add_edges_nodup (items : edge_dict) :
  forall adj adj' : adjacency,
    (forall a, NoDup (nth a adj [])) ->
    add_edges items adj = Returns adj' ->
    forall a, NoDup (nth a adj' []).
Proof.
  induction items as [|[[u v] c] rest IH]; intros adj adj' Hnd; simpl.
  - intros H; inversion H; subst; exact Hnd.
  - destruct (adj_add adj u v) as [adj1| |] eqn:E1; simpl; try discriminate.
    destruct (adj_add adj1 v u) as [adj2| |] eqn:E2; simpl; try discriminate.
    apply IH; eapply adj_add_nodup; [|exact E2].
    eapply adj_add_nodup; [exact Hnd | exact E1].
Qed.

Lemma boundary_nodup (items : edge_dict) : NoDup (boundary_of items).
Proof.
  unfold boundary_of.
  assert (H : forall b, NoDup b -> NoDup (fold_left boundary_step items b)).
  { induction items as [|[[u v] c] rest IH]; intros b Hb; simpl; [exact Hb|].
    apply IH; destruct (c =? 1)%nat; [|exact Hb].
    apply set_add_nodup, set_add_nodup, Hb. }
  apply H; constructor.
Qed.

Lemma build_returns_valid (N : nat) (fs : list (list Z)) (adj : adjacency)
  (bnd : list Z) :
  build_connectivity N fs = Returns (adj, bnd) ->
  forall e, In e (all_edges fs) -> edge_valid N e.
Proof.
  intros Hb e Hin.
  destruct (valid_index_dec N (fst e)) as [H1 | H1];
    destruct (valid_index_dec N (snd e)) as [H2 | H2];
    try (split; assumption);
    (destruct (build_invalid N fs) as (k & Hk & _);
     [exists e; split; [exact Hin | intros [? ?]; contradiction]
     | rewrite Hk in Hb; discriminate Hb]).
Qed.

(** X7. The adjacency the builder returns: one set per vertex, no set
    holds a vertex twice or the vertex itself, every neighbour is a valid
    index and has the vertex among its own neighbours.  The boundary set
    holds no vertex twice, and a boundary vertex is a valid index with a
    neighbour. *)
Theorem adjacency_invariants (N : nat) (fs : list (list Z)) (adj : adjacency)
  (bnd : list Z) :
  build_connectivity N fs = Returns (adj, bnd) ->
  length adj = N
  /\ (forall a, NoDup (nth a adj []) /\ ~ In (Z.of_nat a) (nth a adj []))
  /\ (forall a b, In b (nth a adj []) ->
        valid_index N b /\ In (Z.of_nat a) (nth (Z.to_nat b) adj []))
  /\ NoDup bnd
  /\ forall w, In w bnd -> valid_index N w /\ nth (Z.to_nat w) adj [] <> [].
Proof.
  intros Hb.
  pose proof (build_returns_valid _ _ _ _ Hb) as Hvalid.
  pose proof (build_returns _ _ _ _ Hb) as (Hlen & Hbnd & Hnb & Hin_range).
  split; [exact Hlen|]; split; [|split; [|split]].
  - intros a; split.
    + unfold build_connectivity in Hb.
      destruct (add_edges (count_edges fs) (repeat [] N)) as [adj0| |] eqn:E;
        simpl in Hb; try discriminate.
      inversion Hb; subst adj0.
      eapply add_edges_nodup; [|exact E].
      intros a'; rewrite nth_repeat_nil; constructor.
    + intros Hin; apply Hnb in Hin as [Hin | Hin];
        apply all_edges_sorted in Hin; lia.
  - intros a b Hin; pose proof (Hin_range a b Hin) as Hv; split; [exact Hv|].
    apply Hnb; rewrite Z2Nat.id by (destruct Hv; lia).
    apply Hnb in Hin; tauto.
  - subst bnd; apply boundary_nodup.
  - intros w Hw; subst bnd; apply boundary_of_spec in Hw as (u & v & Hm & Hw).
    assert (Hin : In (u, v) (all_edges fs)) by (apply multiplicity_pos; lia).
    destruct (Hvalid _ Hin) as [Hu Hv]; simpl in Hu, Hv.
    destruct Hw as [-> | ->]; (split; [assumption|]).
    + intros Hnil.
      assert (H : In v (nth (Z.to_nat u) adj [])).
      { apply Hnb; left; rewrite Z2Nat.id by (destruct Hu; lia); exact Hin. }
      rewrite Hnil in H; exact H.
    + intros Hnil.
      assert (H : In u (nth (Z.to_nat v) adj [])).
      { apply Hnb; right; rewrite Z2Nat.id by (destruct Hv; lia); exact Hin. }
      rewrite Hnil in H; exact H.
Qed.

(** X8. The order of the faces does not matter to the connectivity: a
    permuted face list gives a boundary set with the same vertices and an
    adjacency with the same neighbours. *)
Theorem face_order_irrelevant (N : nat) (fs fs' : list (list Z))
  (adj : adjacency) (bnd : list Z) :
  Permutation fs fs' ->
  build_connectivity N fs = Returns (adj, bnd) ->
  exists adj' bnd',
    build_connectivity N fs' = Returns (adj', bnd')
    /\ (forall w, In w bnd <-> In w bnd')
    /\ forall a b, In b (nth a adj []) <-> In b (nth a adj' []).
Proof.
  intros Hperm Hb.
  assert (Hedges : Permutation (all_edges fs) (all_edges fs'))
    by (apply Permutation_flat_map; exact Hperm).
  assert (Hmult : forall e, multiplicity fs e = multiplicity fs' e).
  { intros e; unfold multiplicity.
    apply (proj1 (Permutation_count_occ edge_eq_dec _ _) Hedges). }
  assert (Hin : forall e, In e (all_edges fs) <-> In e (all_edges fs')).
  { intros e; split; apply Permutation_in;
      [exact Hedges | apply Permutation_sym; exact Hedges]. }
  destruct (build_valid N fs') as [adj' Hb'].
  { intros e He; eapply build_returns_valid; [exact Hb | apply Hin; exact He]. }
  exists adj', (boundary_of (count_edges fs')); split; [exact Hb'|].
  apply build_returns in Hb as (_ & -> & Hnb & _).
  apply build_returns in Hb' as (_ & _ & Hnb' & _).
  split.
  - intros w; rewrite !boundary_of_spec; split;
      intros (u & v & Hm & Hw); exists u, v; split; auto;
      [rewrite <- Hmult | rewrite Hmult]; exact Hm.
  - intros a b; rewrite Hnb, Hnb', !Hin; reflexivity.
Qed.

(** ** Composition of calls *)

(** X9. Two calls one after the other, on the same faces and with the
    same [lambda], are one call with the sum of the two iteration counts. *)
Theorem iterations_compose {T : Type} {ST : Scalar T} (pts mid : list (point T))
  (fs : list (list Z)) (lambd : T) (K1 K2 : Z) :
  0 <= K1 -> 0 <= K2 ->
  _laplacian_smooth pts (flatten_faces fs) lambd K1 = Returns mid ->
  _laplacian_smooth mid (flatten_faces fs) lambd K2
  = _laplacian_smooth pts (flatten_faces fs) lambd (K1 + K2).
Proof.
  intros H1 H2 Hmid; rewrite !smooth_flatten in *.
  destruct (build_connectivity (length pts) fs) as [conn| |] eqn:Hb;
    simpl in Hmid; try discriminate.
  inversion Hmid; subst mid; clear Hmid.
  rewrite relax_length, Hb; simpl; f_equal.
  unfold relax; rewrite Z2Nat.inj_add, Nat.add_comm by lia.
  symmetry; apply Nat.iter_add.
Qed.

(** ** The lambda slider and its spin box *)

(** X10. The slider value goes to the spin box as [val/100.0] and comes
    back as [int(val*100)].  Over the range 0..100 of the slider the way
    there and back gives the value itself, except for 29, 57 and 58, which
    come back one lower: [0.29 * 100] is below 29 in binary64. *)
Theorem slider_round_trip (v : Z) :
  0 <= v <= 100 ->
  exists w,
    spin_to_slider (slider_to_spin v) = Some w
    /\ (w = v \/ w = v - 1)
    /\ (w <> v <-> v = 29 \/ v = 57 \/ v = 58).
Proof.
  intros Hv.
  set (check := fun v : Z =>
    match spin_to_slider (slider_to_spin v) with
    | Some w =>
        ((w =? v) || (w =? v - 1))
        && Bool.eqb (negb (w =? v)) ((v =? 29) || (v =? 57) || (v =? 58))
    | None => false
    end).
  assert (Hall : forallb check (map Z.of_nat (seq 0 101)) = true)
    by (vm_compute; reflexivity).
  rewrite forallb_forall in Hall.
  assert (Hin : In v (map Z.of_nat (seq 0 101))).
  { apply in_map_iff; exists (Z.to_nat v); split; [lia | apply in_seq; lia]. }
  specialize (Hall v Hin); unfold check in Hall.
  destruct (spin_to_slider (slider_to_spin v)) as [w|]; [|discriminate].
  exists w; split; [reflexivity|].
  apply andb_true_iff in Hall as [Hnear Hodd].
  apply orb_true_iff in Hnear; rewrite !Z.eqb_eq in Hnear.
  apply Bool.eqb_prop in Hodd.
  split; [exact Hnear|]; split.
  - intros Hne; apply Z.eqb_neq in Hne; rewrite Hne in Hodd; simpl in Hodd.
    symmetry in Hodd; rewrite !orb_true_iff, !Z.eqb_eq in Hodd; tauto.
  - intros Hodd' Heq; subst w; rewrite Z.eqb_refl in Hodd; simpl in Hodd.
    destruct Hodd' as [-> | [-> | ->]]; discriminate Hodd.
Qed.

(** X11. For every position 0..100 of the slider the [lambda] that
    [apply_smoothing] computes, [value / 100.0], lies between 0 and 1, and a
    higher position gives a strictly higher [lambda]. *)
Theorem slider_lambda_range (v w : Z) :
  0 <= v <= 100 -> 0 <= w <= 100 ->
  let lambda_of x := @s_div f64 F64 (s_of_Z x) (s_of_Z 100) in
  f64_leb (fz 0) (lambda_of v) = true
  /\ f64_leb (lambda_of v) (fz 1) = true
  /\ (v < w -> SFltb (lambda_of v) (lambda_of w) = true).
Proof.
  intros Hv Hw lambda_of.
  set (vs := map Z.of_nat (seq 0 101)).
  set (check := fun x : Z =>
    f64_leb (fz 0) (lambda_of x) && f64_leb (lambda_of x) (fz 1)
    && forallb (fun y => negb (x <? y) || SFltb (lambda_of x) (lambda_of y)) vs).
  assert (Hall : forallb check vs = true) by (vm_compute; reflexivity).
  rewrite forallb_forall in Hall.
  assert (Hin : forall x, 0 <= x <= 100 -> In x vs).
  { intros x Hx; apply in_map_iff; exists (Z.to_nat x); split;
      [lia | apply in_seq; lia]. }
  specialize (Hall v (Hin v Hv)); unfold check in Hall.
  apply andb_true_iff in Hall as [Hall Hmono].
  apply andb_true_iff in Hall as [H0 H1].
  split; [exact H0|]; split; [exact H1|].
  intros Hlt; rewrite forallb_forall in Hmono.
  specialize (Hmono w (Hin w Hw)).
  apply orb_true_iff in Hmono as [Hc | Hc]; [|exact Hc].
  apply negb_true_iff, Z.ltb_ge in Hc; lia.
Qed.

(** ** The window: what is on display *)

Section WindowFacts.

Context {T : Type} {ST : Scalar T}.

Lemma remove_from_single (a a' : actor) (m : PolyData T) (n : actor) :
  actors (remove_actor (mkPlotter [(a, m)] n) a') = []
  \/ actors (remove_actor (mkPlotter [(a, m)] n) a') = [(a, m)].
Proof.
  unfold remove_actor; simpl; destruct (a =? a')%nat; simpl; auto.
Qed.

(** Removing the actor the window holds for the mesh on display, and any
    other, leaves the scene empty. *)
Lemma remove_both_empty (p : Plotter T) (a : actor) (m : PolyData T)
  (oa sa : option actor) :
  actors p = [(a, m)] -> oa = Some a \/ sa = Some a ->
  actors (remove_if_set (remove_if_set p oa) sa) = [].
Proof.
  intros Hp Hcur; destruct p as [acts n]; simpl in Hp; subst acts.
  destruct oa as [o|], sa as [s|]; simpl;
    destruct Hcur as [H | H]; try discriminate H; inversion H; subst;
    rewrite ?Nat.eqb_refl; simpl; try reflexivity;
    repeat match goal with
           | |- context [(?x =? ?x)%nat] => rewrite Nat.eqb_refl; simpl
           | |- context [(?x =? ?y)%nat] => destruct (x =? y)%nat eqn:?; simpl
           end;
    reflexivity.
Qed.

Lemma remove_current_empty (p : Plotter T) (a : actor) (m : PolyData T) :
  actors p = [(a, m)] -> actors (remove_if_set p (Some a)) = [].
Proof.
  intros Hp; destruct p as [acts n]; simpl in Hp; subst acts; simpl.
  rewrite Nat.eqb_refl; reflexivity.
Qed.

Lemma remove_none_empty (p : Plotter T) (oa sa : option actor) :
  actors p = [] -> actors (remove_if_set (remove_if_set p oa) sa) = [].
Proof.
  intros Hp; destruct p as [acts n]; simpl in Hp; subst acts.
  destruct oa, sa; reflexivity.
Qed.

End WindowFacts.

Section WindowInvariant.

Context {T : Type} {ST : Scalar T}.

Lemma set_index_showing_orig (w : Window T) :
  showing w = Some ShowOrig ->
  setCurrentIndex w 0
  = with_widgets w (mkWidgets (controls_enabled (widgets w))
                              (preview_enabled (widgets w)) 0
                              (save_enabled (widgets w))).
Proof.
  intros Hs; destruct w as [om sm oa sa sh p [c pe i s]]; simpl in *; subst sh.
  unfold setCurrentIndex, set_current_index_with, update_view, update_view_with,
    with_widgets.
  destruct i as [|q|q]; simpl; destruct om; reflexivity.
Qed.

Lemma set_index_showing_smooth (w : Window T) :
  showing w = Some ShowSmooth ->
  setCurrentIndex w 1
  = with_widgets w (mkWidgets (controls_enabled (widgets w))
                              (preview_enabled (widgets w)) 1
                              (save_enabled (widgets w))).
Proof.
  intros Hs; destruct w as [om sm oa sa sh p [c pe i s]]; simpl in *; subst sh.
  unfold setCurrentIndex, set_current_index_with, update_view, update_view_with,
    with_widgets.
  cbn [widgets preview_index controls_enabled preview_enabled save_enabled
       original_mesh smoothed_mesh orig_actor smooth_actor showing plotter].
  destruct (Z.eqb_spec 1 i) as [<- | Hne]; [reflexivity|].
  destruct om; reflexivity.
Qed.

Lemma load_model_ok (w : Window T) (picked : option (PolyData T)) :
  window_ok w -> window_ok (load_model w picked).
Proof.
  intros Hok; destruct picked as [mesh|]; [|exact Hok].
  unfold load_model.
  destruct (add_mesh (remove_if_set (remove_if_set (plotter w) (orig_actor w))
                                    (smooth_actor w)) mesh) as [a p3] eqn:Hadd.
  rewrite set_index_showing_orig by reflexivity.
  assert (Hempty : actors (remove_if_set (remove_if_set (plotter w) (orig_actor w))
                                         (smooth_actor w)) = []).
  { destruct Hok as (Hd & _ & _); unfold displays in Hd.
    destruct (original_mesh w) as [original|].
    - destruct (showing w) as [[|]|]; [| |contradiction].
      + destruct Hd as (a0 & Ha & Hacts).
        eapply remove_both_empty; [exact Hacts | left; exact Ha].
      + destruct Hd as (a0 & sm0 & Ha & _ & Hacts).
        eapply remove_both_empty; [exact Hacts | right; exact Ha].
    - destruct Hd as (Hacts & _); apply remove_none_empty; exact Hacts. }
  unfold add_mesh in Hadd; rewrite Hempty in Hadd; inversion Hadd; subst a p3.
  split; [|split].
  - unfold displays; simpl; eexists; split; reflexivity.
  - intros smoothed Hsm; simpl in Hsm; discriminate Hsm.
  - unfold widgets_agree; simpl.
    repeat split; intros; try congruence; try discriminate; try lia.
Qed.

Lemma apply_smoothing_slot_ok (w w' : Window T) (lambda_value iter_value : Z) :
  window_ok w ->
  apply_smoothing_slot w lambda_value iter_value = Returns w' ->
  window_ok w'.
Proof.
  intros Hok; unfold apply_smoothing_slot.
  destruct (apply_smoothing (original_mesh w) lambda_value iter_value)
    as [[mesh|]| |] eqn:Happly; simpl; try discriminate;
    [|intros H; inversion H; subst; exact Hok].
  destruct (add_mesh (remove_if_set (remove_if_set (plotter w) (orig_actor w))
                                    (smooth_actor w)) mesh) as [a p3] eqn:Hadd.
  rewrite set_index_showing_smooth by reflexivity.
  intros H; inversion H; subst w'; clear H.
  assert (Horig : exists original, original_mesh w = Some original).
  { destruct (original_mesh w) as [original|]; [eauto|].
    simpl in Happly; inversion Happly. }
  destruct Horig as [original Horig].
  assert (Hempty : actors (remove_if_set (remove_if_set (plotter w) (orig_actor w))
                                         (smooth_actor w)) = []).
  { destruct Hok as (Hd & _ & _); unfold displays in Hd; rewrite Horig in Hd.
    destruct (showing w) as [[|]|]; [| |contradiction].
    - destruct Hd as (a0 & Ha & Hacts).
      eapply remove_both_empty; [exact Hacts | left; exact Ha].
    - destruct Hd as (a0 & sm0 & Ha & _ & Hacts).
      eapply remove_both_empty; [exact Hacts | right; exact Ha]. }
  unfold add_mesh in Hadd; rewrite Hempty in Hadd; inversion Hadd; subst a p3.
  destruct Hok as (_ & _ & Hw); unfold widgets_agree in Hw.
  destruct Hw as (Hc & _ & _ & _).
  split; [|split].
  - unfold displays; simpl; rewrite Horig, ?Hempty; eexists; eexists.
    repeat split; reflexivity.
  - intros smoothed Hsm; simpl in *; inversion Hsm; subst smoothed.
    exists lambda_value, iter_value; exact Happly.
  - unfold widgets_agree; simpl; rewrite Horig.
    repeat split; intros; try congruence; try discriminate; try lia.
    apply Hc; rewrite Horig; discriminate.
Qed.

End WindowInvariant.

Section WindowRuns.

Context {T : Type} {ST : Scalar T}.

Lemma select_ok (w : Window T) (index : Z) :
  window_ok w -> index = 0 \/ index = 1 -> window_ok (setCurrentIndex w index).
Proof.
  intros (Hd & Hs & Hw) Hindex.
  destruct w as [om sm oa sa sh p [c pe i s]].
  unfold displays, smoothed_from_original, widgets_agree in *; simpl in *.
  destruct Hw as (Hc & Hp & Hsv & Hi).
  unfold setCurrentIndex, set_current_index_with.
  cbn [widgets preview_index controls_enabled preview_enabled save_enabled].
  destruct (Z.eqb_spec index i) as [-> | Hne].
  { split; [exact Hd|]; split; [exact Hs|]; repeat split; tauto. }
  unfold update_view, update_view_with, with_widgets.
  cbn [widgets preview_index controls_enabled preview_enabled save_enabled
       original_mesh smoothed_mesh orig_actor smooth_actor showing plotter].
  destruct om as [original|].
  2:{ split; [exact Hd|]; split; [exact Hs|].
      unfold widgets_agree; simpl; repeat split; try tauto; congruence. }
  destruct (Hi ltac:(discriminate)) as [Hi1 Hi0].
  destruct sh as [[|]|]; [| |contradiction].
  - (* the original is shown, the index was 0 *)
    assert (i = 0) by (apply Hi0; reflexivity); subst i.
    destruct Hindex as [-> | ->]; [contradiction|].
    unfold showing_is; simpl.
    destruct sm as [smoothed|].
    + destruct Hd as (a & -> & Hacts).
      pose proof (remove_current_empty p a original Hacts) as Hempty.
      unfold add_mesh; rewrite Hempty; simpl.
      split; [unfold displays; simpl; eauto|].
      split; [unfold smoothed_from_original; simpl; exact Hs|].
      unfold widgets_agree; simpl; repeat split; intros; try tauto;
        try congruence; try discriminate; try lia.
    + unfold set_current_index_with, update_view_nested, update_view_with; simpl.
      split; [unfold displays; simpl; exact Hd|].
      split; [unfold smoothed_from_original; simpl; exact Hs|].
      unfold widgets_agree; simpl; repeat split; intros; try tauto;
        try congruence; try discriminate; try lia.
  - (* the smoothed mesh is shown, the index was 1 *)
    assert (i = 1) by (apply Hi1; reflexivity); subst i.
    destruct Hindex as [-> | ->]; [|contradiction].
    unfold showing_is; simpl.
    destruct Hd as (a & smoothed & -> & -> & Hacts).
    pose proof (remove_current_empty p a smoothed Hacts) as Hempty.
    unfold add_mesh; rewrite Hempty; simpl.
    split; [unfold displays; simpl; eauto|].
    split; [unfold smoothed_from_original; simpl; exact Hs|].
    unfold widgets_agree; simpl; repeat split; intros; try tauto;
      try congruence; try discriminate; try lia.
Qed.

Lemma init_window_ok : window_ok (@init_window T).
Proof.
  split; [|split].
  - unfold displays; simpl; auto.
  - intros smoothed H; discriminate H.
  - unfold widgets_agree; simpl; repeat split; intros; try congruence;
      try discriminate; try tauto.
Qed.

Lemma handle_ok (w w' : Window T) (e : event T) :
  window_ok w -> possible e -> handle w e = Returns w' -> window_ok w'.
Proof.
  intros Hok Hpos; destruct e as [picked | lv iv | index]; simpl.
  - intros H; inversion H; subst; apply load_model_ok; exact Hok.
  - apply apply_smoothing_slot_ok; exact Hok.
  - intros H; inversion H; subst; apply select_ok; assumption.
Qed.

Lemma run_ok (events : list (event T)) :
  forall w w' : Window T,
    window_ok w -> Forall possible events -> run w events = Returns w' ->
    window_ok w'.
Proof.
  induction events as [|e rest IH]; intros w w' Hok Hall; simpl.
  - intros H; inversion H; subst; exact Hok.
  - inversion Hall as [|? ? He Hrest]; subst.
    destruct (handle w e) as [w1| |] eqn:Hh; simpl; try discriminate.
    apply IH; [eapply handle_ok; eauto | exact Hrest].
Qed.

End WindowRuns.

(** ** The window after any session *)

Lemma apply_smoothing_frame {T : Type} {ST : Scalar T} (mesh sm : PolyData T)
  (lambda_value iter_value : Z) :
  apply_smoothing (Some mesh) lambda_value iter_value = Returns (Some sm) ->
  faces sm = faces mesh /\ length (points sm) = length (points mesh).
Proof.
  unfold apply_smoothing, _laplacian_smooth.
  destruct (parse_faces (faces mesh)) as [fs| |]; simpl; try discriminate.
  destruct (build_connectivity (length (points mesh)) fs) as [conn| |];
    simpl; try discriminate.
  intros H; inversion H; subst sm; simpl; split;
    [reflexivity | apply relax_length].
Qed.

(** X12. Whatever the user does, the scene holds nothing before a model is
    loaded and exactly one actor afterwards: the actor the window keeps for
    the original mesh when [showing] is ['orig'], for the smoothed mesh when
    it is ['smooth'].  No actor is ever left behind. *)
Theorem scene_shows_one_mesh {T : Type} {ST : Scalar T} (events : list (event T))
  (w : Window T) :
  Forall possible events ->
  run init_window events = Returns w ->
  displays w /\ (length (actors (plotter w)) <= 1)%nat.
Proof.
  intros Hall Hrun.
  destruct (run_ok events init_window w init_window_ok Hall Hrun) as (Hd & _ & _).
  split; [exact Hd|].
  unfold displays in Hd; destruct (original_mesh w) as [original|].
  - destruct (showing w) as [[|]|]; [| |contradiction].
    + destruct Hd as (a & _ & ->); simpl; lia.
    + destruct Hd as (a & sm & _ & _ & ->); simpl; lia.
  - destruct Hd as (-> & _); simpl; lia.
Qed.

(** X13. Whatever the user does, a smoothed mesh held by the window was
    computed from the model that is loaded now: it has the faces and the
    number of points of that model.  Loading another model drops it. *)
Theorem smoothed_mesh_is_current {T : Type} {ST : Scalar T}
  (events : list (event T)) (w : Window T) (smoothed : PolyData T) :
  Forall possible events ->
  run init_window events = Returns w ->
  smoothed_mesh w = Some smoothed ->
  exists original lambda_value iter_value,
    original_mesh w = Some original
    /\ apply_smoothing (Some original) lambda_value iter_value
       = Returns (Some smoothed)
    /\ faces smoothed = faces original
    /\ length (points smoothed) = length (points original).
Proof.
  intros Hall Hrun Hsm.
  destruct (run_ok events init_window w init_window_ok Hall Hrun) as (Hd & Hs & _).
  destruct (Hs smoothed Hsm) as (lv & iv & Happly).
  destruct (original_mesh w) as [original|] eqn:Horig.
  - exists original, lv, iv; split; [reflexivity|]; split; [exact Happly|].
    eapply apply_smoothing_frame; exact Happly.
  - simpl in Happly; inversion Happly.
Qed.

(** X14. Whatever the user does, the parameter widgets and the apply
    button are enabled exactly when a model is loaded, the preview box and
    the save button exactly when there is a smoothed mesh, and with a model
    loaded the preview box is at index 1 exactly when the smoothed mesh is
    shown and at index 0 exactly when the original is. *)
Theorem widgets_follow_state {T : Type} {ST : Scalar T} (events : list (event T))
  (w : Window T) :
  Forall possible events ->
  run init_window events = Returns w ->
  widgets_agree w.
Proof.
  intros Hall Hrun.
  destruct (run_ok events init_window w init_window_ok Hall Hrun) as (_ & _ & Hw).
  exact Hw.
Qed.

(** X15. Picking "Smoothed Model" before any smoothing was applied leaves
    the window as it is, the combo box back at index 0 (the guard of
    [update_view]); once there is a smoothed mesh, picking an entry shows the
    mesh of that entry. *)
Theorem preview_selection {T : Type} {ST : Scalar T} (events : list (event T))
  (w : Window T) (original : PolyData T) :
  Forall possible events ->
  run init_window events = Returns w ->
  original_mesh w = Some original ->
  (smoothed_mesh w = None -> setCurrentIndex w 1 = w)
  /\ map snd (actors (plotter (setCurrentIndex w 0))) = [original]
  /\ forall smoothed, smoothed_mesh w = Some smoothed ->
       map snd (actors (plotter (setCurrentIndex w 1))) = [smoothed].
Proof.
  intros Hall Hrun Horig.
  pose proof (run_ok events init_window w init_window_ok Hall Hrun) as Hok.
  destruct Hok as (Hd & _ & Hw).
  destruct w as [om sm oa sa sh p [c pe i s]]; simpl in *; subst om.
  unfold displays, widgets_agree in Hd, Hw; simpl in Hd, Hw.
  destruct Hw as (_ & _ & _ & Hi); destruct (Hi ltac:(discriminate)) as [Hi1 Hi0].
  unfold setCurrentIndex, set_current_index_with, update_view, update_view_with,
    update_view_nested, with_widgets, showing_is in *.
  cbn [widgets preview_index controls_enabled preview_enabled save_enabled
       original_mesh smoothed_mesh orig_actor smooth_actor showing plotter] in *.
  destruct sh as [[|]|]; [| |contradiction].
  - assert (i = 0) by (apply Hi0; reflexivity); subst i.
    destruct Hd as (a & -> & Hacts).
    pose proof (remove_current_empty p a original Hacts) as Hempty.
    simpl in Hempty; unfold add_mesh; simpl.
    split; [intros ->; reflexivity|]; split; [rewrite Hacts; reflexivity|].
    intros smoothed ->; simpl; rewrite Hempty; reflexivity.
  - assert (i = 1) by (apply Hi1; reflexivity); subst i.
    destruct Hd as (a & smoothed & -> & -> & Hacts).
    pose proof (remove_current_empty p a smoothed Hacts) as Hempty.
    simpl in Hempty; unfold add_mesh; simpl.
    split; [intros H; discriminate H|]; split; [rewrite Hempty; reflexivity|].
    intros smoothed' H; inversion H; subst; rewrite Hacts; reflexivity.
Qed.

(** ** Binary64: NaN *)

Lemma f64_add_nan_r (x : f64) : SFadd 53 1024 x S754_nan = S754_nan.
Proof. destruct x; reflexivity. Qed.

Lemma f64_sub_nan_r (x : f64) : SFsub 53 1024 x S754_nan = S754_nan.
Proof. destruct x; reflexivity. Qed.

Lemma f64_mul_nan_r (x : f64) : SFmul 53 1024 x S754_nan = S754_nan.
Proof. destruct x; reflexivity. Qed.

Lemma coord_p_add_f64 (a : axis) (p q : point f64) :
  coord a (p_add p q) = SFadd 53 1024 (coord a p) (coord a q).
Proof. destruct a; reflexivity. Qed.

Lemma fold_sum_nan_acc (a : axis) (rest : list (point f64)) :
  forall acc : point f64,
    coord a acc = S754_nan -> coord a (fold_left p_add rest acc) = S754_nan.
Proof.
  induction rest as [|r rest IH]; intros acc Hacc; simpl; [exact Hacc|].
  apply IH; rewrite coord_p_add_f64, Hacc; reflexivity.
Qed.

Lemma fold_sum_nan_in (a : axis) (rest : list (point f64)) :
  forall acc : point f64,
    (exists r, In r rest /\ coord a r = S754_nan) ->
    coord a (fold_left p_add rest acc) = S754_nan.
Proof.
  induction rest as [|r rest IH]; intros acc (r0 & Hin & Hnan); [destruct Hin|].
  simpl; destruct Hin as [-> | Hin].
  - apply fold_sum_nan_acc; rewrite coord_p_add_f64, Hnan; apply f64_add_nan_r.
  - apply IH; eauto.
Qed.

Lemma mean_nan (a : axis) (rows : list (point f64)) :
  (exists r, In r rows /\ coord a r = S754_nan) ->
  coord a (p_mean rows) = S754_nan.
Proof.
  intros (r & Hin & Hnan).
  assert (Hsum : coord a (p_sum rows) = S754_nan).
  { destruct rows as [|r0 rest]; [destruct Hin|]; simpl.
    destruct Hin as [-> | Hin];
      [apply fold_sum_nan_acc; exact Hnan | apply fold_sum_nan_in; eauto]. }
  unfold p_mean; destruct a; simpl in *; rewrite Hsum; reflexivity.
Qed.

Lemma moved_nan (lambd : f64) (adj : adjacency) (prev : list (point f64))
  (i : nat) (a : axis) :
  coord a (nth i prev p_zero) = S754_nan
  \/ coord a (p_mean (gather prev (nth i adj []))) = S754_nan ->
  coord a (moved lambd adj prev i) = S754_nan.
Proof.
  intros H; rewrite coord_moved_f64.
  assert (Hsub : coord a (p_sub (p_mean (gather prev (nth i adj [])))
                                (nth i prev p_zero)) = S754_nan).
  { destruct a; simpl in *; destruct H as [-> | ->];
      try reflexivity; apply f64_sub_nan_r. }
  rewrite Hsub, f64_mul_nan_r; apply f64_add_nan_r.
Qed.

Lemma pass_keeps_nan (lambd : f64) (adj : adjacency) (bnd : list Z)
  (prev : list (point f64)) (i : nat) (a : axis) :
  (i < length prev)%nat ->
  coord a (nth i prev p_zero) = S754_nan ->
  coord a (nth i (jacobi_pass lambd adj bnd prev) p_zero) = S754_nan.
Proof.
  intros Hlt Hnan; rewrite jacobi_pass_nth by exact Hlt.
  destruct (is_fixed adj bnd i); [exact Hnan | apply moved_nan; left; exact Hnan].
Qed.

Lemma passes_keep_nan (lambd : f64) (adj : adjacency) (bnd : list Z) (k : nat)
  (prev : list (point f64)) (i : nat) (a : axis) :
  (i < length prev)%nat ->
  coord a (nth i prev p_zero) = S754_nan ->
  coord a (nth i (Nat.iter k (jacobi_pass lambd adj bnd) prev) p_zero) = S754_nan.
Proof.
  intros Hlt Hnan; induction k as [|k IH]; simpl; [exact Hnan|].
  apply pass_keeps_nan; [|exact IH].
  clear IH; induction k as [|k IHk]; simpl; [exact Hlt|].
  rewrite jacobi_pass_length; exact IHk.
Qed.

(** X16. NaN spreads and stays.  With at least one iteration and for every
    [lambda], 0 included, a relaxed vertex that has a NaN coordinate, or a
    neighbour with a NaN coordinate, has NaN on that axis in the output. *)
Theorem nan_spreads (pts : list (point f64)) (fs : list (list Z)) (lambd : f64)
  (K : Z) (adj : adjacency) (bnd : list Z) (out : list (point f64))
  (i : nat) (j : Z) (a : axis) :
  build_connectivity (length pts) fs = Returns (adj, bnd) ->
  _laplacian_smooth pts (flatten_faces fs) lambd K = Returns out ->
  1 <= K ->
  is_fixed adj bnd i = false -> (i < length pts)%nat ->
  j = Z.of_nat i \/ In j (nth i adj []) ->
  coord a (nth (Z.to_nat j) pts p_zero) = S754_nan ->
  coord a (nth i out p_zero) = S754_nan.
Proof.
  intros Hb Hs HK Hfix Hlt Hj Hnan.
  rewrite smooth_flatten, Hb in Hs; simpl in Hs; inversion Hs; subst out.
  rewrite relax_jacobi.
  destruct (Z.to_nat K) as [|k] eqn:Hk; [lia|].
  rewrite Nat.iter_succ_r; apply passes_keep_nan;
    [rewrite jacobi_pass_length; exact Hlt|].
  rewrite jacobi_pass_nth, Hfix by exact Hlt.
  apply moved_nan; destruct Hj as [-> | Hin].
  - left; rewrite Nat2Z.id in Hnan; exact Hnan.
  - right; apply mean_nan.
    exists (nth (Z.to_nat j) pts p_zero); split; [|exact Hnan].
    unfold gather; apply in_map_iff; exists j; split; [reflexivity | exact Hin].
Qed.

(** ** The fuel of the face parser *)

Section ParserFuel.

Variable arr : list Z.

Lemma parse_loop_halts (fuel : nat) :
  forall (i : Z) (acc : list (list Z)),
    parse_loop fuel arr i acc = OutOfFuel <-> halts arr fuel i = false.
Proof.
  induction fuel as [|fuel IH]; intros i acc; simpl;
    destruct (Z.of_nat (length arr) <=? i);
    try (split; intros H; try discriminate H; reflexivity).
  destruct (py_index arr i) as [n| |]; simpl;
    [apply IH | |]; split; intros H; try discriminate H; reflexivity.
Qed.

Lemma halts_succ (fuel : nat) :
  forall i, halts arr fuel i = true -> halts arr (S fuel) i = true.
Proof.
  induction fuel as [|fuel IH]; intros i; simpl;
    destruct (Z.of_nat (length arr) <=? i); try congruence.
  destruct (py_index arr i) as [n| |]; [|reflexivity|discriminate].
  intros H; apply IH in H; exact H.
Qed.

Lemma halts_more (fuel fuel' : nat) (i : Z) :
  (fuel <= fuel')%nat -> halts arr fuel i = true -> halts arr fuel' i = true.
Proof.
  induction 1 as [|m Hle IH]; intros H; [exact H|].
  apply halts_succ, IH, H.
Qed.

Lemma turns_exist (fuel : nat) (i : Z) :
  halts arr fuel i = true -> exists m, (m <= fuel)%nat /\ turns arr i m.
Proof.
  induction fuel as [|fuel IH]; intros H.
  - exists 0%nat; split; [lia|]; split; [exact H | intros k Hk; lia].
  - destruct (halts arr fuel i) eqn:E.
    + destruct (IH eq_refl) as (m & Hm & Ht); exists m; split; [lia | exact Ht].
    + exists (S fuel); split; [lia|]; split; [exact H|].
      intros k Hk; destruct (halts arr k i) eqn:Ek; [|reflexivity].
      assert (Hf : halts arr fuel i = true) by (apply (halts_more k); [lia | exact Ek]).
      congruence.
Qed.

Lemma turns_unique (i : Z) (m m' : nat) : turns arr i m -> turns arr i m' -> m = m'.
Proof.
  intros [H1 L1] [H2 L2].
  destruct (Nat.lt_trichotomy m m') as [Hlt | [Heq | Hgt]]; [|exact Heq|].
  - rewrite (L2 m Hlt) in H1; discriminate.
  - rewrite (L1 m' Hgt) in H2; discriminate.
Qed.

Lemma halts_step (fuel : nat) (i : Z) :
  i < Z.of_nat (length arr) ->
  halts arr (S fuel) i
  = match py_index arr i with
    | Returns n => halts arr fuel (i + (1 + n))
    | Raises _ => true
    | OutOfFuel => false
    end.
Proof.
  intros Hlt; simpl.
  destruct (Z.leb_spec (Z.of_nat (length arr)) i); [lia | reflexivity].
Qed.

Lemma py_index_range (i n : Z) :
  py_index arr i = Returns n ->
  - Z.of_nat (length arr) <= i < Z.of_nat (length arr).
Proof.
  unfold py_index.
  destruct (Z.leb_spec 0 i); destruct (Z.ltb_spec i (Z.of_nat (length arr)));
    simpl; try (intros _; lia);
    destruct (Z.leb_spec (- Z.of_nat (length arr)) i);
    destruct (Z.ltb_spec i 0); simpl; try discriminate; intros _; lia.
Qed.

(** The indices the loop reads before it is over are all different and all
    between [-len(arr)] and [len(arr) - 1]. *)
Lemma turns_trace (m : nat) :
  forall i, turns arr i m ->
    exists trace : list Z,
      (m <= length trace + 1)%nat
      /\ NoDup trace
      /\ forall x, In x trace ->
           - Z.of_nat (length arr) <= x < Z.of_nat (length arr)
           /\ exists g, (g <= m)%nat /\ turns arr x g.
Proof.
  induction m as [|g IH]; intros i Hturn.
  - exists []; split; [simpl; lia|]; split; [constructor | intros x []].
  - pose proof Hturn as [Hh Hleast].
    assert (Hlt : i < Z.of_nat (length arr)).
    { assert (H0 : halts arr 0 i = false) by (apply Hleast; lia).
      simpl in H0; destruct (Z.leb_spec (Z.of_nat (length arr)) i);
        [discriminate | assumption]. }
    rewrite halts_step in Hh by exact Hlt.
    destruct (py_index arr i) as [n|e|] eqn:Eread; [| |discriminate].
    + pose proof (py_index_range i n Eread) as Hi.
      assert (Hnext : turns arr (i + (1 + n)) g).
      { split; [exact Hh|]; intros k Hk.
        assert (Hs : halts arr (S k) i = false) by (apply Hleast; lia).
        rewrite halts_step, Eread in Hs by exact Hlt; exact Hs. }
      destruct (IH _ Hnext) as (trace & Hlen & Hnd & Hall).
      exists (i :: trace); split; [simpl; lia|]; split.
      * constructor; [|exact Hnd].
        intros Hin; destruct (Hall i Hin) as (_ & g' & Hg' & Hturn').
        pose proof (turns_unique _ _ _ Hturn' Hturn); lia.
      * intros x [<- | Hin].
        -- split; [exact Hi|]; exists (S g); split; [lia | exact Hturn].
        -- destruct (Hall x Hin) as (Hx & g' & Hg' & Hturn').
           split; [exact Hx|]; exists g'; split; [lia | exact Hturn'].
    + exists []; split; [|split; [constructor | intros x []]].
      destruct g as [|g']; [simpl; lia|].
      assert (H1 : halts arr 1 i = false) by (apply Hleast; lia).
      rewrite halts_step, Eread in H1 by exact Hlt; discriminate H1.
Qed.

Lemma trace_bound (trace : list Z) :
  NoDup trace ->
  (forall x, In x trace -> - Z.of_nat (length arr) <= x < Z.of_nat (length arr)) ->
  (length trace <= 2 * length arr)%nat.
Proof.
  intros Hnd Hin.
  set (range := map (fun k => Z.of_nat k - Z.of_nat (length arr))
                    (seq 0 (2 * length arr))).
  assert (Hlen : length range = (2 * length arr)%nat)
    by (unfold range; rewrite length_map, length_seq; reflexivity).
  rewrite <- Hlen; apply NoDup_incl_length; [exact Hnd|].
  intros x Hx; apply Hin in Hx; unfold range; apply in_map_iff.
  exists (Z.to_nat (x + Z.of_nat (length arr))); split; [lia|].
  apply in_seq; lia.
Qed.

End ParserFuel.

(** X17. The fuel of [parse_faces] is enough: a loop that is not over after
    [2 * len(arr) + 1] turns is never over, because by then it has read some
    index twice. *)
Theorem parse_fuel_complete (arr : list Z) :
  parse_faces arr = OutOfFuel <->
  forall fuel : nat, parse_loop fuel arr 0 [] = OutOfFuel.
Proof.
  unfold parse_faces; split; [|intros H; apply H].
  intros Hout fuel; apply parse_loop_halts.
  apply parse_loop_halts in Hout.
  destruct (halts arr fuel 0) eqn:E; [|reflexivity].
  destruct (turns_exist arr fuel 0 E) as (m & _ & Hturn).
  destruct (turns_trace arr m 0 Hturn) as (trace & Hlen & Hnd & Hall).
  assert (Hbound : (length trace <= 2 * length arr)%nat).
  { apply trace_bound; [exact Hnd | intros x Hx; apply Hall; exact Hx]. }
  destruct Hturn as [Hm _].
  rewrite (halts_more arr m (2 * length arr + 1) 0) in Hout;
    [discriminate | lia | exact Hm].
Qed.

(** ** Binary64: [lambda = 0] in any iteration order *)

(** [x + 0 * d] is NaN when [d] is an infinity or NaN. *)
Lemma f64_add_zero_times_not_finite (x d : f64) (s : bool) :
  f64_finite d = false ->
  SFadd 53 1024 x (SFmul 53 1024 (S754_zero s) d) = S754_nan.
Proof.
  intros Hd; destruct d as [sd | sd | | sd md ed]; simpl in Hd;
    try discriminate; simpl; apply f64_add_nan_r.
Qed.

(** C6, as the code has it.  [lambda] is 0, of either sign; the sets are
    listed in any iteration order.  As long as every difference between a
    neighbour mean and the old position is finite in every pass, the output
    has the values of the input at every index: identical, or a zero for a
    zero.  When in some pass the difference of a relaxed vertex is not finite
    on an axis, the output has NaN there. *)
Theorem lambda_zero_identity (order : list Z -> list Z) (pts : list (point f64))
  (fs : list (list Z)) (s : bool) (K : Z) (adj : adjacency) (bnd : list Z) :
  iteration_order order ->
  build_connectivity (length pts) fs = Returns (adj, bnd) ->
  (finite_run (S754_zero s) (map order adj) bnd (Z.to_nat K) pts = true ->
   exists out,
     _laplacian_smooth_in order pts (flatten_faces fs) (S754_zero s) K = Returns out
     /\ same_points out pts)
  /\ forall (k i : nat) (a : axis),
      (k < Z.to_nat K)%nat ->
      is_fixed adj bnd i = false -> (i < length pts)%nat ->
      let prev := relax (S754_zero s) (map order adj) bnd (Z.of_nat k) pts in
      f64_finite (coord a (p_sub (p_mean (gather prev (order (nth i adj []))))
                                 (nth i prev p_zero))) = false ->
      exists out,
        _laplacian_smooth_in order pts (flatten_faces fs) (S754_zero s) K = Returns out
        /\ coord a (nth i out p_zero) = S754_nan.
Proof.
  intros Ho Hb; split.
  - intros Hrun; rewrite smooth_in_flatten, Hb; cbn [bind fst snd].
    eexists; split; [reflexivity|].
    unfold relax; apply run_lambda0; exact Hrun.
  - intros k i a Hk Hfix Hlt prev Hd.
    rewrite smooth_in_flatten, Hb; cbn [bind fst snd].
    eexists; split; [reflexivity|].
    assert (Hprev : length prev = length pts) by apply relax_length.
    unfold prev in Hd, Hprev; rewrite relax_jacobi, Nat2Z.id in Hd, Hprev.
    rewrite relax_jacobi.
    replace (Z.to_nat K) with ((Z.to_nat K - S k) + S k)%nat by lia.
    assert (Hlt' : (i < length (Nat.iter k (jacobi_pass (S754_zero s)
                                              (map order adj) bnd) pts))%nat).
    { apply (Nat.lt_le_trans _ _ _ Hlt), Nat.eq_le_incl; symmetry; exact Hprev. }
    rewrite Nat.iter_add; apply passes_keep_nan.
    + rewrite Nat.iter_succ, jacobi_pass_length; exact Hlt'.
    + rewrite Nat.iter_succ, jacobi_pass_nth by exact Hlt'.
      rewrite is_fixed_order, Hfix by exact Ho.
      rewrite coord_moved_f64, nth_map_order by exact Ho.
      apply f64_add_zero_times_not_finite; exact Hd.
Qed.

(** ** These properties on examples *)

Lemma parse_nonnegative_returns_on_cut_array :
  exists fs,
    parse_faces [3; 0; 1; 2; 3; 0; 2] = Returns fs
    /\ (length fs <= length [3; 0; 1; 2; 3; 0; 2])%nat
    /\ Forall (fun f => incl f [3; 0; 1; 2; 3; 0; 2]) fs.
Proof.
  apply (parse_nonnegative_returns [3; 0; 1; 2; 3; 0; 2]).
  repeat (apply Forall_cons; [simpl; lia|]); apply Forall_nil.
Defined.

Lemma parse_minus_one_loops_after_a_face :
  parse_loop 100 [3; 0; 1; 2; -1] 4 [[0; 1; 2]] = OutOfFuel.
Proof.
  apply (parse_minus_one_loops [3; 0; 1; 2; -1] 4); [simpl; lia | reflexivity].
Defined.

Lemma parse_negative_size_raises_on_minus_five :
  parse_faces [-5; 0; 1] = Raises IndexError.
Proof.
  apply (parse_negative_size_raises (-5) [0; 1]); simpl; lia.
Defined.

Lemma parse_truncated_face_on_cut_array :
  parse_faces (flatten_faces [[0; 1; 2]] ++ 3 :: [0; 2]) = Returns ([[0; 1; 2]] ++ [[0; 2]]).
Proof.
  apply (parse_truncated_face [[0; 1; 2]] 3 [0; 2]); simpl; lia.
Defined.

Lemma flat_array_round_trip_on_tetra :
  parse_faces (flatten_faces tetra_faces) = Returns tetra_faces
  /\ tetra_faces = [[0; 1; 2]; [0; 3; 1]; [0; 2; 3]; [1; 3; 2]].
Proof.
  split.
  - apply (proj1 (flat_array_round_trip tetra_faces)).
  - apply (proj2 (flat_array_round_trip tetra_faces)
             [[0; 1; 2]; [0; 3; 1]; [0; 2; 3]; [1; 3; 2]]).
    reflexivity.
Defined.

Lemma edge_count_invariants_on_quad :
  count_edges quad_faces
  = [((0, 1), 1%nat); ((1, 2), 1%nat); ((0, 2), 2%nat); ((2, 3), 1%nat);
     ((0, 3), 1%nat)]
  /\ (0 < 2 /\ 2%nat = multiplicity quad_faces (0, 2) /\ (1 <= 2)%nat)
  /\ In ((2, 3), multiplicity quad_faces (2, 3)) (count_edges quad_faces).
Proof.
  split; [reflexivity|]; split.
  - apply (proj1 (proj2 (edge_count_invariants quad_faces)) 0 2 2%nat).
    vm_compute; tauto.
  - apply (proj1 (proj2 (proj2 (edge_count_invariants quad_faces))) (2, 3)).
    vm_compute; tauto.
Defined.

Lemma adjacency_invariants_on_quad :
  length [[1; 2; 3]; [0; 2]; [1; 0; 3]; [2; 0]] = 4%nat
  /\ (forall a, NoDup (nth a [[1; 2; 3]; [0; 2]; [1; 0; 3]; [2; 0]] [])
                /\ ~ In (Z.of_nat a) (nth a [[1; 2; 3]; [0; 2]; [1; 0; 3]; [2; 0]] []))
  /\ (forall a b, In b (nth a [[1; 2; 3]; [0; 2]; [1; 0; 3]; [2; 0]] []) ->
        valid_index 4 b
        /\ In (Z.of_nat a) (nth (Z.to_nat b) [[1; 2; 3]; [0; 2]; [1; 0; 3]; [2; 0]] []))
  /\ NoDup [0; 1; 2; 3]
  /\ forall w, In w [0; 1; 2; 3] ->
       valid_index 4 w
       /\ nth (Z.to_nat w) [[1; 2; 3]; [0; 2]; [1; 0; 3]; [2; 0]] [] <> [].
Proof.
  apply (adjacency_invariants 4 quad_faces
           [[1; 2; 3]; [0; 2]; [1; 0; 3]; [2; 0]] [0; 1; 2; 3]).
  reflexivity.
Defined.

Lemma face_order_irrelevant_on_quad :
  exists adj' bnd',
    build_connectivity 4 [[0; 2; 3]; [0; 1; 2]] = Returns (adj', bnd')
    /\ (forall w, In w [0; 1; 2; 3] <-> In w bnd')
    /\ forall a b, In b (nth a [[1; 2; 3]; [0; 2]; [1; 0; 3]; [2; 0]] [])
                   <-> In b (nth a adj' []).
Proof.
  apply (face_order_irrelevant 4 quad_faces [[0; 2; 3]; [0; 1; 2]]
           [[1; 2; 3]; [0; 2]; [1; 0; 3]; [2; 0]] [0; 1; 2; 3]).
  - apply perm_swap.
  - reflexivity.
Defined.

Lemma iterations_compose_on_tetra :
  exists mid,
    _laplacian_smooth tetra_f64 (flatten_faces tetra_faces) (f64_ratio 1 2) 1
    = Returns mid
    /\ _laplacian_smooth mid (flatten_faces tetra_faces) (f64_ratio 1 2) 2
       = _laplacian_smooth tetra_f64 (flatten_faces tetra_faces) (f64_ratio 1 2) (1 + 2).
Proof.
  eexists; split; [vm_compute; reflexivity|].
  apply (iterations_compose tetra_f64 _ tetra_faces (f64_ratio 1 2) 1 2);
    [lia | lia | vm_compute; reflexivity].
Defined.

Lemma slider_round_trip_at_29 :
  exists w,
    spin_to_slider (slider_to_spin 29) = Some w
    /\ (w = 29 \/ w = 29 - 1)
    /\ (w <> 29 <-> 29 = 29 \/ 29 = 57 \/ 29 = 58).
Proof.
  apply (slider_round_trip 29); lia.
Defined.

Lemma slider_lambda_range_at_29_and_30 :
  f64_leb (fz 0) (@s_div f64 F64 (s_of_Z 29) (s_of_Z 100)) = true
  /\ f64_leb (@s_div f64 F64 (s_of_Z 29) (s_of_Z 100)) (fz 1) = true
  /\ (29 < 30 ->
      SFltb (@s_div f64 F64 (s_of_Z 29) (s_of_Z 100))
            (@s_div f64 F64 (s_of_Z 30) (s_of_Z 100)) = true).
Proof.
  apply (slider_lambda_range 29 30); lia.
Defined.

Lemma session_possible : Forall (@possible f64) session.
Proof.
  unfold session; repeat (apply Forall_cons; [simpl; auto|]); apply Forall_nil.
Qed.

Lemma session_smoothed_possible : Forall (@possible f64) session_smoothed.
Proof.
  unfold session_smoothed; repeat (apply Forall_cons; [simpl; auto|]);
    apply Forall_nil.
Qed.

Lemma scene_shows_one_mesh_in_session :
  match run init_window session with
  | Returns w => displays w /\ (length (actors (plotter w)) <= 1)%nat
  | _ => False
  end.
Proof.
  destruct (run init_window session) as [w| |] eqn:Hrun;
    [| vm_compute in Hrun; discriminate Hrun ..].
  exact (scene_shows_one_mesh session w session_possible Hrun).
Defined.

Lemma smoothed_mesh_is_current_in_session :
  match run init_window session_smoothed with
  | Returns w =>
      match smoothed_mesh w with
      | Some smoothed =>
          exists original lambda_value iter_value,
            original_mesh w = Some original
            /\ apply_smoothing (Some original) lambda_value iter_value
               = Returns (Some smoothed)
            /\ faces smoothed = faces original
            /\ length (points smoothed) = length (points original)
      | None => False
      end
  | _ => False
  end.
Proof.
  destruct (run init_window session_smoothed) as [w| |] eqn:Hrun;
    [| vm_compute in Hrun; discriminate Hrun ..].
  destruct (smoothed_mesh w) as [smoothed|] eqn:Hsm.
  - exact (smoothed_mesh_is_current session_smoothed w smoothed
             session_smoothed_possible Hrun Hsm).
  - vm_compute in Hrun; inversion Hrun; subst w; discriminate Hsm.
Defined.

Lemma widgets_follow_state_in_session :
  match run init_window session with
  | Returns w => widgets_agree w
  | _ => False
  end.
Proof.
  destruct (run init_window session) as [w| |] eqn:Hrun;
    [| vm_compute in Hrun; discriminate Hrun ..].
  exact (widgets_follow_state session w session_possible Hrun).
Defined.

Lemma preview_selection_in_session :
  match run init_window session_smoothed with
  | Returns w =>
      (smoothed_mesh w = None -> setCurrentIndex w 1 = w)
      /\ map snd (actors (plotter (setCurrentIndex w 0))) = [tetra_mesh]
      /\ forall smoothed, smoothed_mesh w = Some smoothed ->
           map snd (actors (plotter (setCurrentIndex w 1))) = [smoothed]
  | _ => False
  end.
Proof.
  destruct (run init_window session_smoothed) as [w| |] eqn:Hrun;
    [| vm_compute in Hrun; discriminate Hrun ..].
  apply (preview_selection session_smoothed w tetra_mesh
           session_smoothed_possible Hrun).
  vm_compute in Hrun; inversion Hrun; reflexivity.
Defined.

Lemma nan_spreads_on_tetra :
  exists out,
    _laplacian_smooth tetra_nan (flatten_faces tetra_faces) (fz 0) 2 = Returns out
    /\ coord X (nth 1 out p_zero) = S754_nan.
Proof.
  eexists; split; [vm_compute; reflexivity|].
  apply (nan_spreads tetra_nan tetra_faces (fz 0) 2
           [[1; 2; 3]; [0; 2; 3]; [1; 0; 3]; [0; 1; 2]] [] _ 1%nat 0 X).
  - reflexivity.
  - vm_compute; reflexivity.
  - lia.
  - reflexivity.
  - simpl; lia.
  - right; simpl; tauto.
  - reflexivity.
Defined.

Lemma parse_fuel_complete_on_minus_one :
  parse_loop 1000 [-1] 0 [] = OutOfFuel.
Proof.
  apply (proj1 (parse_fuel_complete [-1]) eq_refl 1000%nat).
Defined.

Lemma lambda_zero_identity_on_tetra :
  (exists out,
     _laplacian_smooth_in (fun s => s) tetra_f64 (flatten_faces tetra_faces) (fz 0) 3
     = Returns out
     /\ same_points out tetra_f64)
  /\ exists out,
      _laplacian_smooth_in (fun s => s) tetra_huge (flatten_faces tetra_faces) (fz 0) 2
      = Returns out
      /\ coord X (nth 3 out p_zero) = S754_nan.
Proof.
  split.
  - apply (proj1 (lambda_zero_identity (fun s => s) tetra_f64 tetra_faces false 3
                    [[1; 2; 3]; [0; 2; 3]; [1; 0; 3]; [0; 1; 2]] []
                    (fun s => Permutation_refl s) eq_refl)).
    vm_compute; reflexivity.
  - apply (proj2 (lambda_zero_identity (fun s => s) tetra_huge tetra_faces false 2
                    [[1; 2; 3]; [0; 2; 3]; [1; 0; 3]; [0; 1; 2]] []
                    (fun s => Permutation_refl s) eq_refl) 0%nat 3%nat X).
    + simpl; lia.
    + reflexivity.
    + simpl; lia.
    + vm_compute; reflexivity.
Defined.
